(** * lido: a bounded pool on a buffered channel

    An embedding of [lido.go] at the granularity of its atomic actions.  Every
    operation of the package is a function on an explicit [World]: the pool,
    the heap of items handed out so far, and three ghost components used only
    to state properties (the number of factory invocations, the time spent
    waiting on the timer, and the log of values whose [Close] method ran).

    Conventions.
    - Go's [int] and [time.Duration] are 64-bit: they are [Z] with the
      wrap-around of [++] and [--] written out ([wrap]).
    - A goroutine that can never proceed (a send on a full channel with no
      other goroutine around) is the outcome [Blocked]; a Go panic is the
      outcome [Panic], and it keeps the state it leaves behind, because a
      caller may [recover] and go on.
    - The mutexes are not represented as state.  What they guarantee is the
      granularity of the model: a program is a sequence of atomic actions,
      and the actions of concurrent callers interleave ([op], [run]).
    - The limit that the runtime puts on the size of a channel allocation is
      outside the model. *)

From Stdlib Require Import ZArith Lia Bool.
From stdpp Require Import base strings list.

Local Open Scope Z_scope.

(** ** Machine integers *)

Definition int_min : Z := - 2 ^ 63.
Definition int_max : Z := 2 ^ 63 - 1.

Definition is_int (x : Z) : Prop := int_min <= x <= int_max.

(** Two's complement wrap-around of a 64-bit signed result. *)
Definition wrap (x : Z) : Z := (x + 2 ^ 63) mod 2 ^ 64 - 2 ^ 63.

(** [time.Second], in nanoseconds. *)
Definition Second : Z := 1000000000.

(** ** Errors and values *)

(** An [error] made by [errors.New]: a pointer (its identity) to a text.
    Go compares such errors by identity. *)
Record error : Type := mkError { err_id : nat; err_text : string }.

(** [var ErrTimeout = errors.New(...)], an exported package variable. *)
Definition ErrTimeout : error :=
  mkError 0 "pool: timeout waiting for available item".

(** A value of type [interface{}]: [nil], a value whose dynamic type has no
    [Close() error] method, or one that has it; [closeErr] is what that method
    returns. *)
Inductive iface : Type :=
| nil
| Plain (id : Z)
| Closer (id : Z) (closeErr : option error).

(** The type assertion [v.(closer)] followed by [c.Close()]: [None] when the
    assertion fails, [Some r] when it succeeds and the call returns [r]. *)
Definition closer (v : iface) : option (option error) :=
  match v with
  | Closer _ r => Some r
  | _ => None
  end.

(** ** Buffered channels of [interface{}] *)

Module Chan.

Record t : Type := mk { buf : list iface; cap : Z; closed : bool }.

Definition make (size : Z) : t := mk [] size false.

Definition len (c : t) : Z := Z.of_nat (length (buf c)).

Inductive send_result : Type :=
| Sent (c : t)
| SendOnClosed
| SendBlocks.

(** [c <- v] *)
Definition send (c : t) (v : iface) : send_result :=
  if closed c then SendOnClosed
  else if len c <? cap c then Sent (mk (buf c ++ [v]) (cap c) (closed c))
  else SendBlocks.

Inductive recv_result : Type :=
| Received (v : iface) (c : t)
| RecvBlocks.

(** [<-c]: the oldest buffered value; the zero value at once when the
    channel is closed and drained. *)
Definition recv (c : t) : recv_result :=
  match buf c with
  | v :: rest => Received v (mk rest (cap c) (closed c))
  | [] => if closed c then Received nil c else RecvBlocks
  end.

(** [close(c)]; [None] is the panic on a channel closed before. *)
Definition close (c : t) : option t :=
  if closed c then None else Some (mk (buf c) (cap c) true).

End Chan.

(** ** The structs of the package *)

Module Options.

(** [New] is [None] for a nil func.  The factory is a closure with state of
    its own: it is given as the result of its n-th invocation. *)
Record t : Type := mk {
  New : option (nat -> iface * option error);
  Size : Z;
  Timeout : Z
}.

End Options.

Record Pool : Type := mkPool {
  items : Chan.t;
  newFn : nat -> iface * option error;
  maxSize : Z;
  curSize : Z;
  timeout : Z
}.

(** The closures [restore] and [remove] of an item capture the pool and the
    value; they are the functions [restore] and [remove] below. *)
Record Item : Type := mkItem {
  value : iface;
  closed : bool
}.

(** A [*Item]: an index into the heap; an index past its end is a nil
    pointer. *)
Abbreviation ptr := nat.

Record World : Type := mkWorld {
  pool : Pool;
  heap : list Item;
  calls : nat;            (* ghost: invocations of the factory so far *)
  clock : Z;              (* ghost: time spent until a timer fired *)
  disposed : list iface   (* ghost: values whose Close method ran, in order *)
}.

Definition set_pool (w : World) (p : Pool) : World :=
  mkWorld p (heap w) (calls w) (clock w) (disposed w).

Definition set_items (p : Pool) (c : Chan.t) : Pool :=
  mkPool c (newFn p) (maxSize p) (curSize p) (timeout p).

Definition set_curSize (p : Pool) (n : Z) : Pool :=
  mkPool (items p) (newFn p) (maxSize p) n (timeout p).

(** ** Outcomes and the monad of operations *)

Inductive outcome (A : Type) : Type :=
| Done (a : A) (w : World)
| Panic (msg : string) (w : World)
| Blocked (w : World).

Arguments Done {A} a w.
Arguments Panic {A} msg w.
Arguments Blocked {A} w.

Definition M (A : Type) : Type := World -> outcome A.

Definition ret {A : Type} (a : A) : M A := fun w => Done a w.

Definition bind {A B : Type} (m : M A) (k : A -> M B) : M B :=
  fun w =>
    match m w with
    | Done a w' => k a w'
    | Panic msg w' => Panic msg w'
    | Blocked w' => Blocked w'
    end.

Definition panic {A : Type} (msg : string) : M A := fun w => Panic msg w.

Declare Scope pool_scope.
Delimit Scope pool_scope with pool.
Notation "x <- m ;; k" := (bind m (fun x => k))
  (at level 100, m at next level, right associativity) : pool_scope.
Notation "m ;;; k" := (bind m (fun _ => k))
  (at level 100, right associativity) : pool_scope.
Local Open Scope pool_scope.

Definition world_of {A : Type} (r : outcome A) : World :=
  match r with
  | Done _ w | Panic _ w | Blocked w => w
  end.

(** *** Primitive effects *)

Definition getPool : M Pool := fun w => Done (pool w) w.

(** [p.newFn()] *)
Definition call_newFn : M (iface * option error) :=
  fun w =>
    Done (newFn (pool w) (calls w))
         (mkWorld (pool w) (heap w) (S (calls w)) (clock w) (disposed w)).

(** [p.items <- v] *)
Definition send_items (v : iface) : M unit :=
  fun w =>
    match Chan.send (items (pool w)) v with
    | Chan.Sent c => Done tt (set_pool w (set_items (pool w) c))
    | Chan.SendOnClosed => Panic "send on closed channel" w
    | Chan.SendBlocks => Blocked w
    end.

(** [p.curSize++] and [p.curSize--] *)
Definition incr_curSize : M unit :=
  fun w => Done tt (set_pool w (set_curSize (pool w) (wrap (curSize (pool w) + 1)))).

Definition decr_curSize : M unit :=
  fun w => Done tt (set_pool w (set_curSize (pool w) (wrap (curSize (pool w) - 1)))).

(** The [select] of [Next]: [Some v] when the receive case runs, [None] when
    the timer case does.  With one goroutine the timer fires exactly when
    nothing can be received, after [p.timeout]. *)
Definition select_items : M (option iface) :=
  fun w =>
    match Chan.recv (items (pool w)) with
    | Chan.Received v c => Done (Some v) (set_pool w (set_items (pool w) c))
    | Chan.RecvBlocks =>
        Done None (mkWorld (pool w) (heap w) (calls w)
                           (clock w + timeout (pool w)) (disposed w))
    end.

(** [&Item{value: v, ...}] *)
Definition new_Item (v : iface) : M ptr :=
  fun w =>
    Done (length (heap w))
         (mkWorld (pool w) (heap w ++ [mkItem v false]) (calls w) (clock w)
                  (disposed w)).

Definition deref (i : ptr) : M Item :=
  fun w =>
    match heap w !! i with
    | Some it => Done it w
    | None => Panic "invalid memory address or nil pointer dereference" w
    end.

(** [i.closed = true] *)
Definition set_closed (i : ptr) : M unit :=
  fun w =>
    match heap w !! i with
    | Some it =>
        Done tt (mkWorld (pool w) (<[i := mkItem (value it) true]> (heap w))
                         (calls w) (clock w) (disposed w))
    | None => Panic "invalid memory address or nil pointer dereference" w
    end.

(** ** The package *)

Inductive result (A : Type) : Type :=
| Ok (a : A)
| Abort (msg : string).

Arguments Ok {A} a.
Arguments Abort {A} msg.

Definition New (o : Options.t) : result Pool :=
  match Options.New o with
  | None => Abort "pool: new func must not be nil"
  | Some f =>
      let size := if Options.Size o <=? 0 then 1 else Options.Size o in
      let tmo := if Options.Timeout o <=? 0 then 30 * Second
                 else Options.Timeout o in
      Ok (mkPool (Chan.make size) f size 0 tmo)
  end.

Definition addNew : M (option error) :=
  p <- getPool ;;
  if curSize p >=? maxSize p then ret None
  else
    r <- call_newFn ;;
    match snd r with
    | Some err => ret (Some err)
    | None => send_items (fst r) ;;; incr_curSize ;;; ret None
    end.

(** The [select] statement of [Next], with its two cases. *)
Definition Next_select : M (option ptr * option error) :=
  r <- select_items ;;
  match r with
  | Some v => i <- new_Item v ;; ret (Some i, None)
  | None => ret (None, Some ErrTimeout)
  end.

Definition Next : M (option ptr * option error) :=
  p <- getPool ;;
  err <- (if Chan.len (items p) <? 1 then addNew else ret None) ;;
  match err with
  | Some e => ret (None, Some e)
  | None => Next_select
  end.

Definition Size (p : Pool) : Z := maxSize p.

Definition Timeout (p : Pool) : Z := timeout p.

(** The loop [for v := range p.items] of [Close], on a closed channel: what it
    returns, what it leaves in the buffer, and the extended log of the values
    whose [Close] method ran. *)
Fixpoint drain (buf log : list iface) : option error * list iface * list iface :=
  match buf with
  | [] => (None, [], log)
  | v :: rest =>
      match closer v with
      | Some (Some err) => (Some err, rest, log ++ [v])
      | Some None => drain rest (log ++ [v])
      | None => drain rest log
      end
  end.

Definition close_items : M unit :=
  fun w =>
    match Chan.close (items (pool w)) with
    | Some c => Done tt (set_pool w (set_items (pool w) c))
    | None => Panic "close of closed channel" w
    end.

Definition range_items : M (option error) :=
  fun w =>
    let c := items (pool w) in
    let '(err, rest, log) := drain (Chan.buf c) (disposed w) in
    Done err
         (mkWorld (set_items (pool w) (Chan.mk rest (Chan.cap c) (Chan.closed c)))
                  (heap w) (calls w) (clock w) log).

Definition Close : M (option error) :=
  close_items ;;; range_items.

Definition Value (i : ptr) : M iface :=
  it <- deref i ;; ret (value it).

Definition restore (it : Item) : M unit := send_items (value it).

Definition remove (it : Item) : M unit := decr_curSize.

Definition Restore (i : ptr) : M unit :=
  it <- deref i ;;
  if closed it then panic "result: already closed"
  else restore it ;;; set_closed i.

Definition Remove (i : ptr) : M unit :=
  it <- deref i ;;
  if closed it then panic "result: already closed"
  else remove it ;;; set_closed i.

(** ** Programs *)

Definition fresh (p : Pool) : World := mkWorld p [] 0 0 [].

(** The atomic actions on a pool.  [OpNext], [OpRestore] and [OpRemove] are
    whole calls, as a single caller makes them.  When several goroutines call
    [Next] at once, the parts of their calls interleave: a goroutine that saw
    an empty channel runs [addNew], under the mutex, when the channel may
    hold values again ([OpAddNew]), and runs its [select] later still
    ([OpSelect]).  The two increments of [addNew] are one action because the
    mutex keeps every other reader and writer of [curSize] out, and an action
    of another goroutine on the channel in between does not read [curSize]. *)
Inductive op : Type :=
| OpNext
| OpRestore (i : ptr)
| OpRemove (i : ptr)
| OpAddNew
| OpSelect.

Definition forget {A : Type} (r : outcome A) : outcome unit :=
  match r with
  | Done _ w => Done tt w
  | Panic msg w => Panic msg w
  | Blocked w => Blocked w
  end.

Definition exec (o : op) : M unit :=
  fun w =>
    match o with
    | OpNext => forget (Next w)
    | OpRestore i => Restore i w
    | OpRemove i => Remove i w
    | OpAddNew => forget (addNew w)
    | OpSelect => forget (Next_select w)
    end.

(** The actions run in order; a panic is recovered from, and nothing runs
    after an action that blocks for ever. *)
Fixpoint run (ops : list op) (w : World) : World :=
  match ops with
  | [] => w
  | o :: rest =>
      match exec o w with
      | Done _ w' | Panic _ w' => run rest w'
      | Blocked w' => w'
      end
  end.

(** ** Notions used in the statements *)

(** *** Accounting *)

(** Items handed out and not yet restored or removed. *)
Fixpoint active (h : list Item) : Z :=
  match h with
  | [] => 0
  | it :: rest => (if closed it then 0 else 1) + active rest
  end.

(** A value that an earlier, successful invocation of the factory returned. *)
Definition constructed (w : World) (v : iface) : Prop :=
  exists k : nat, (k < calls w)%nat /\ newFn (pool w) k = (v, None).

(** The representation invariant of a pool in use: the channel is open and
    has the capacity [maxSize]; [curSize] counts the idle values and the open
    items, and does not exceed [maxSize]; every value around came from the
    factory. *)
Record Inv (w : World) : Prop := mkInv {
  inv_open : Chan.closed (items (pool w)) = false;
  inv_cap : Chan.cap (items (pool w)) = maxSize (pool w);
  inv_max : 1 <= maxSize (pool w) <= int_max;
  inv_count : curSize (pool w) = Chan.len (items (pool w)) + active (heap w);
  inv_bound : curSize (pool w) <= maxSize (pool w);
  inv_idle : forall v, v ∈ Chan.buf (items (pool w)) -> constructed w v;
  inv_held : forall i it,
      heap w !! i = Some it -> closed it = false -> constructed w (value it)
}.

(** The worlds a pool in use can be in: those that some program of [Next],
    [Restore] and [Remove], interleaved in any way, reaches from a pool just
    built by [New] from well-typed options.  [Close] is not among the
    actions: the package is not to be used after it. *)
Definition reachable (w : World) : Prop :=
  exists (o : Options.t) (p : Pool) (ops : list op),
    is_int (Options.Size o) /\ New o = Ok p /\ w = run ops (fresh p).

(** The world after one more invocation of the factory and nothing else. *)
Definition tick (w : World) : World :=
  mkWorld (pool w) (heap w) (S (calls w)) (clock w) (disposed w).

(** *** Configuration *)

(** The configuration of a pool is never written after [New]. *)
Definition same_config (w w' : World) : Prop :=
  maxSize (pool w') = maxSize (pool w) /\
  timeout (pool w') = timeout (pool w) /\
  newFn (pool w') = newFn (pool w).

(** An operation that leaves the configuration alone. *)
Definition keeps_config {A : Type} (m : M A) : Prop :=
  forall w, same_config w (world_of (m w)).

(** *** Dispositions of an item *)

Inductive disposition : Type :=
| ByRestore
| ByRemove.

Definition dispose (d : disposition) (i : ptr) : M unit :=
  match d with
  | ByRestore => Restore i
  | ByRemove => Remove i
  end.

(** Does the operation dispose of item [i]? *)
Definition touches (i : ptr) (o : op) : bool :=
  match o with
  | OpRestore j | OpRemove j => Nat.eqb i j
  | OpNext | OpAddNew | OpSelect => false
  end.

Definition leaves_alone (i : ptr) (ops : list op) : bool :=
  forallb (fun o => negb (touches i o)) ops.

(** *** Shutdown *)

(** The values of a list that have a [Close] method, in order. *)
Fixpoint closers (l : list iface) : list iface :=
  match l with
  | [] => []
  | v :: rest =>
      match closer v with
      | Some _ => v :: closers rest
      | None => closers rest
      end
  end.

(** No value of the list has a [Close] method that returns an error. *)
Fixpoint all_close_ok (l : list iface) : bool :=
  match l with
  | [] => true
  | v :: rest =>
      match closer v with
      | Some (Some _) => false
      | _ => all_close_ok rest
      end
  end.

(** *** Reuse *)

(** One acquire-then-restore cycle, as in the test "should reuse pool items":
    [Next], read the value, [Restore].  It yields the value, or [None] when
    [Next] returned an error. *)
Definition cycle : M (option iface) :=
  r <- Next ;;
  match fst r with
  | Some i => v <- Value i ;; Restore i ;;; ret (Some v)
  | None => ret None
  end.

Fixpoint cycles (n : nat) : M (list (option iface)) :=
  match n with
  | O => ret []
  | S n' => v <- cycle ;; vs <- cycles n' ;; ret (v :: vs)
  end.

(** ** Pools and programs for the examples *)

(** The factory of the tests: the n-th invocation returns a value with id n,
    whose [Close] succeeds. *)
Definition factory (n : nat) : iface * option error :=
  (Closer (Z.of_nat n) None, None).

(** [errBasic] of the tests, and a factory that always fails with it, as in
    the test "should return new func errors". *)
Definition errBasic : error := mkError 1 "error".

Definition failing_factory (n : nat) : iface * option error :=
  (nil, Some errBasic).

(** A factory that fails with the package's own exported [ErrTimeout]. *)
Definition timeout_factory (n : nat) : iface * option error :=
  (nil, Some ErrTimeout).

(** A factory that fails on its first invocation only (scenario C). *)
Definition flaky_factory (n : nat) : iface * option error :=
  match n with
  | O => (nil, Some errBasic)
  | S _ => factory n
  end.

Definition millisecond : Z := 1000000.

Definition demo_options : Options.t :=
  Options.mk (Some factory) 2 (100 * millisecond).

Definition demo_pool : Pool :=
  mkPool (Chan.make 2) factory 2 0 (100 * millisecond).

(** Three callers race through [addNew] before any of them reaches its
    [select]; then one item is removed, replaced, and another one restored
    twice. *)
Definition demo_program : list op :=
  [OpAddNew; OpAddNew; OpAddNew; OpSelect; OpSelect; OpSelect;
   OpRemove 0%nat; OpNext; OpRestore 1%nat; OpRestore 1%nat].

Definition failing_pool : Pool :=
  mkPool (Chan.make 1) failing_factory 1 0 (100 * millisecond).

Definition timeout_pool : Pool :=
  mkPool (Chan.make 1) timeout_factory 1 0 (100 * millisecond).

Definition flaky_pool : Pool :=
  mkPool (Chan.make 1) flaky_factory 1 0 (100 * millisecond).

Definition single_pool : Pool :=
  mkPool (Chan.make 1) factory 1 0 (100 * millisecond).

(** A pool of capacity four with the idle values [buf], all accounted for. *)
Definition idle_world (buf : list iface) : World :=
  mkWorld (mkPool (Chan.mk buf 4 false) factory 4
                  (Chan.len (Chan.mk buf 4 false)) (100 * millisecond))
          [] 4 0 [].

(** What a [Next] hands out: the value of the item, and the error. *)
Definition received (r : outcome (option ptr * option error))
  : option iface * option error :=
  match r with
  | Done (Some i, e) w => (value <$> heap w !! i, e)
  | Done (None, e) _ => (None, e)
  | _ => (None, None)
  end.

(** The outcome of an operation without its world. *)
Definition verdict {A : Type} (r : outcome A) : option A + string :=
  match r with
  | Done a _ => inl (Some a)
  | Panic msg _ => inr msg
  | Blocked _ => inl None
  end.

(** ** Further notions: the values in circulation *)

(** The values held by open items, in the order of the heap. *)
Fixpoint held (h : list Item) : list iface :=
  match h with
  | [] => []
  | it :: rest => if closed it then held rest else value it :: held rest
  end.

(** The values in circulation: idle in the channel, or held by an open
    item. *)
Definition live (w : World) : list iface :=
  Chan.buf (items (pool w)) ++ held (heap w).

(** A factory that never returns the same value twice. *)
Definition distinct_values (f : nat -> iface * option error) : Prop :=
  forall (j k : nat) (v : iface), f j = (v, None) -> f k = (v, None) -> j = k.

(** A factory that never fails. *)
Definition never_fails (f : nat -> iface * option error) : Prop :=
  forall n : nat, snd (f n) = None.

(** The items that [k] calls of [Next] create on a fresh pool with room for
    them. *)
Definition first_items (f : nat -> iface * option error) (k : nat) : list Item :=
  map (fun j => mkItem (fst (f j)) false) (seq 0 k).

(** * Properties *)

(** ** The scenarios of the specification, run on the model *)

(** Scenario A: capacity 1; the first [Next] constructs id 0; a second one,
    with id 0 still out, times out; after [Restore] the next one gets id 0
    again. *)
Example scenario_A :
  let r1 := Next (fresh single_pool) in
  let r2 := Next (world_of r1) in
  let r3 := Next (world_of (Restore 0%nat (world_of r2))) in
  [received r1; received r2; received r3] =
  [(Some (Closer 0 None), None); (None, Some ErrTimeout);
   (Some (Closer 0 None), None)].
Proof. reflexivity. Qed.

(** Scenario B: capacity 2; ids 0 and 1, then a timeout. *)
Example scenario_B :
  match New demo_options with
  | Ok p =>
      let r1 := Next (fresh p) in
      let r2 := Next (world_of r1) in
      let r3 := Next (world_of r2) in
      [received r1; received r2; received r3]
  | Abort _ => []
  end = [(Some (Closer 0 None), None); (Some (Closer 1 None), None);
         (None, Some ErrTimeout)].
Proof. reflexivity. Qed.

(** Scenario C: the factory fails once; [curSize] stays 0 and a later [Next]
    succeeds. *)
Example scenario_C :
  let r1 := Next (fresh flaky_pool) in
  let r2 := Next (world_of r1) in
  (received r1, curSize (pool (world_of r1)), received r2) =
  ((None, Some errBasic), 0, (Some (Closer 1 None), None)).
Proof. reflexivity. Qed.

(** Scenario D: capacity 1, the only value removed; [Close] returns nil. *)
Example scenario_D :
  let w := run [OpNext; OpRemove 0%nat] (fresh single_pool) in
  verdict (Close w) = inl (Some None).
Proof. reflexivity. Qed.

(** The test "should replace removed items": ids 0 and 1 with capacity 1. *)
Example replace_removed_items :
  let r1 := Next (fresh single_pool) in
  let r2 := Next (world_of (Remove 0%nat (world_of r1))) in
  [received r1; received r2] =
  [(Some (Closer 0 None), None); (Some (Closer 1 None), None)].
Proof. reflexivity. Qed.

(** Outside the contract of the package: after [Close], a first [Restore]
    panics on the closed channel, and a second [Close] panics as well. *)
Example use_after_Close :
  let w := world_of (Close (world_of (Next (fresh single_pool)))) in
  (verdict (Restore 0%nat w), verdict (Remove 0%nat w), verdict (Close w)) =
  (inr "send on closed channel"%string, inl (Some tt),
   inr "close of closed channel"%string).
Proof. reflexivity. Qed.

(** ** Equations of the operations *)

Lemma wrap_id (x : Z) : is_int x -> wrap x = x.
Proof.
  unfold is_int, int_min, int_max, wrap. intros H.
  rewrite Z.mod_small; lia.
Qed.

Ltac open_world w :=
  destruct w as [[[? ? ?] ? ? ? ?] ? ? ? ?]; cbn in *.

Ltac run_op :=
  unfold Next, Next_select, addNew, Restore, Remove, restore, remove, Close, bind, ret,
    panic, getPool, call_newFn, send_items, incr_curSize, decr_curSize,
    select_items, new_Item, deref, set_closed, close_items, range_items,
    set_pool, set_items, set_curSize, Chan.send, Chan.recv, Chan.close,
    Chan.len; cbn.

Ltac decide_tests :=
  repeat match goal with
    | |- context [?a <? ?b] => destruct (Z.ltb_spec a b); try lia; cbn
    | |- context [?a >=? ?b] =>
        rewrite (Z.geb_leb a b); destruct (Z.leb_spec b a); try lia; cbn
    | |- context [?a <=? ?b] => destruct (Z.leb_spec a b); try lia; cbn
    end.

(** An idle value is handed out at once: no growth, no timer. *)
Lemma Next_idle (w : World) (v : iface) (rest : list iface) :
  Chan.buf (items (pool w)) = v :: rest ->
  Next w =
    Done (Some (length (heap w)), None)
         (mkWorld (set_items (pool w)
                     (Chan.mk rest (Chan.cap (items (pool w)))
                              (Chan.closed (items (pool w)))))
                  (heap w ++ [mkItem v false]) (calls w) (clock w) (disposed w)).
Proof.
  intros Hbuf. open_world w. subst. run_op. decide_tests. reflexivity.
Qed.

(** Growth with a factory that succeeds. *)
Lemma Next_grow (w : World) (v : iface) :
  Chan.buf (items (pool w)) = [] ->
  Chan.closed (items (pool w)) = false ->
  0 < Chan.cap (items (pool w)) ->
  curSize (pool w) < maxSize (pool w) ->
  newFn (pool w) (calls w) = (v, None) ->
  Next w =
    Done (Some (length (heap w)), None)
         (mkWorld (set_curSize (pool w) (wrap (curSize (pool w) + 1)))
                  (heap w ++ [mkItem v false]) (S (calls w)) (clock w)
                  (disposed w)).
Proof.
  intros Hbuf Hopen Hcap Hlt Hnew. open_world w. subst. run_op.
  decide_tests. rewrite Hnew. cbn. decide_tests. reflexivity.
Qed.

(** Growth with a factory that fails: only the ghost call counter moves. *)
Lemma Next_grow_fails (w : World) (v : iface) (e : error) :
  Chan.buf (items (pool w)) = [] ->
  curSize (pool w) < maxSize (pool w) ->
  newFn (pool w) (calls w) = (v, Some e) ->
  Next w =
    Done (None, Some e)
         (mkWorld (pool w) (heap w) (S (calls w)) (clock w) (disposed w)).
Proof.
  intros Hbuf Hlt Hnew. open_world w. subst. run_op.
  decide_tests. rewrite Hnew. reflexivity.
Qed.

(** Nothing idle and no room to grow: the timer fires. *)
Lemma Next_full (w : World) :
  Chan.buf (items (pool w)) = [] ->
  Chan.closed (items (pool w)) = false ->
  maxSize (pool w) <= curSize (pool w) ->
  Next w =
    Done (None, Some ErrTimeout)
         (mkWorld (pool w) (heap w) (calls w) (clock w + timeout (pool w))
                  (disposed w)).
Proof.
  intros Hbuf Hopen Hge. open_world w. subst. run_op.
  decide_tests. reflexivity.
Qed.

Lemma Restore_nil (w : World) (i : ptr) :
  heap w !! i = None ->
  Restore i w = Panic "invalid memory address or nil pointer dereference" w.
Proof. intros H. run_op. rewrite H. reflexivity. Qed.

Lemma Remove_nil (w : World) (i : ptr) :
  heap w !! i = None ->
  Remove i w = Panic "invalid memory address or nil pointer dereference" w.
Proof. intros H. run_op. rewrite H. reflexivity. Qed.

Lemma Restore_closed (w : World) (i : ptr) (it : Item) :
  heap w !! i = Some it -> closed it = true ->
  Restore i w = Panic "result: already closed" w.
Proof. intros H Hc. run_op. rewrite H. cbn. rewrite Hc. reflexivity. Qed.

Lemma Remove_closed (w : World) (i : ptr) (it : Item) :
  heap w !! i = Some it -> closed it = true ->
  Remove i w = Panic "result: already closed" w.
Proof. intros H Hc. run_op. rewrite H. cbn. rewrite Hc. reflexivity. Qed.

Lemma Restore_active (w : World) (i : ptr) (it : Item) :
  heap w !! i = Some it -> closed it = false ->
  Chan.closed (items (pool w)) = false ->
  Chan.len (items (pool w)) < Chan.cap (items (pool w)) ->
  Restore i w =
    Done tt
         (mkWorld (set_items (pool w)
                     (Chan.mk (Chan.buf (items (pool w)) ++ [value it])
                              (Chan.cap (items (pool w))) false))
                  (<[i := mkItem (value it) true]> (heap w))
                  (calls w) (clock w) (disposed w)).
Proof.
  intros H Hc Hopen Hlen. open_world w. subst. unfold Chan.len in Hlen.
  cbn in Hlen. run_op. rewrite H. cbn. rewrite Hc. cbn.
  decide_tests. rewrite H. reflexivity.
Qed.

Lemma Remove_active (w : World) (i : ptr) (it : Item) :
  heap w !! i = Some it -> closed it = false ->
  Remove i w =
    Done tt
         (mkWorld (set_curSize (pool w) (wrap (curSize (pool w) - 1)))
                  (<[i := mkItem (value it) true]> (heap w))
                  (calls w) (clock w) (disposed w)).
Proof.
  intros H Hc. open_world w. run_op. rewrite H. cbn. rewrite Hc. cbn.
  rewrite H. reflexivity.
Qed.

(** ** What [Next] does in an arbitrary world *)

Lemma addNew_eq (w : World) :
  addNew w =
    if curSize (pool w) >=? maxSize (pool w) then Done None w
    else
      match snd (newFn (pool w) (calls w)) with
      | Some err => Done (Some err) (tick w)
      | None =>
          match Chan.send (items (pool w)) (fst (newFn (pool w) (calls w))) with
          | Chan.Sent c =>
              Done None
                   (mkWorld (mkPool c (newFn (pool w)) (maxSize (pool w))
                                    (wrap (curSize (pool w) + 1))
                                    (timeout (pool w)))
                            (heap w) (S (calls w)) (clock w) (disposed w))
          | Chan.SendOnClosed => Panic "send on closed channel" (tick w)
          | Chan.SendBlocks => Blocked (tick w)
          end
      end.
Proof.
  unfold addNew, bind, getPool.
  destruct (curSize (pool w) >=? maxSize (pool w)); [reflexivity|].
  unfold call_newFn, tick.
  destruct (snd (newFn (pool w) (calls w))); [reflexivity|].
  unfold send_items. cbn.
  destruct (Chan.send (items (pool w)) (fst (newFn (pool w) (calls w))));
    reflexivity.
Qed.

Lemma Next_select_eq (w : World) :
  Next_select w =
    match Chan.recv (items (pool w)) with
    | Chan.Received v c =>
        Done (Some (length (heap w)), None)
             (mkWorld (set_items (pool w) c) (heap w ++ [mkItem v false])
                      (calls w) (clock w) (disposed w))
    | Chan.RecvBlocks =>
        Done (None, Some ErrTimeout)
             (mkWorld (pool w) (heap w) (calls w)
                      (clock w + timeout (pool w)) (disposed w))
    end.
Proof.
  unfold Next_select, bind, select_items.
  destruct (Chan.recv (items (pool w))); reflexivity.
Qed.

Lemma Next_eq (w : World) :
  Next w =
    match (if Chan.len (items (pool w)) <? 1 then addNew w else Done None w) with
    | Done (Some e) w1 => Done (None, Some e) w1
    | Done None w1 =>
        match Chan.recv (items (pool w1)) with
        | Chan.Received v c =>
            Done (Some (length (heap w1)), None)
                 (mkWorld (set_items (pool w1) c) (heap w1 ++ [mkItem v false])
                          (calls w1) (clock w1) (disposed w1))
        | Chan.RecvBlocks =>
            Done (None, Some ErrTimeout)
                 (mkWorld (pool w1) (heap w1) (calls w1)
                          (clock w1 + timeout (pool w1)) (disposed w1))
        end
    | Panic msg w1 => Panic msg w1
    | Blocked w1 => Blocked w1
    end.
Proof.
  unfold Next, bind, getPool.
  destruct (Chan.len (items (pool w)) <? 1).
  - destruct (addNew w) as [[e|] w1|msg w1|w1]; try reflexivity.
    apply Next_select_eq.
  - unfold ret. apply Next_select_eq.
Qed.

Lemma len_lt_1 (c : Chan.t) : (Chan.len c <? 1) = true <-> Chan.buf c = [].
Proof.
  unfold Chan.len. rewrite Z.ltb_lt. destruct (Chan.buf c); cbn; split;
    intros H; try reflexivity; try discriminate; lia.
Qed.

(** The factory runs only when nothing is idle and there is room to grow. *)
Lemma Next_calls (w : World) :
  (Chan.buf (items (pool w)) = [] /\ curSize (pool w) < maxSize (pool w) /\
   calls (world_of (Next w)) = S (calls w)) \/
  ((Chan.buf (items (pool w)) <> [] \/ maxSize (pool w) <= curSize (pool w)) /\
   calls (world_of (Next w)) = calls w).
Proof.
  rewrite Next_eq.
  destruct (Chan.len (items (pool w)) <? 1) eqn:Hlen.
  - apply len_lt_1 in Hlen. rewrite addNew_eq, Z.geb_leb.
    destruct (Z.leb_spec (maxSize (pool w)) (curSize (pool w))) as [Hge|Hlt].
    + right. split; [right; exact Hge|].
      destruct (Chan.recv (items (pool w))); reflexivity.
    + left. split; [exact Hlen|]. split; [exact Hlt|].
      destruct (snd (newFn (pool w) (calls w))); [reflexivity|].
      destruct (Chan.send _ _); try reflexivity. cbn.
      destruct (Chan.recv c); reflexivity.
  - right. split.
    + left. intros Hbuf. apply len_lt_1 in Hbuf. congruence.
    + destruct (Chan.recv (items (pool w))); reflexivity.
Qed.

Lemma send_recv (c c' : Chan.t) (v : iface) :
  Chan.send c v = Chan.Sent c' -> Chan.recv c' <> Chan.RecvBlocks.
Proof.
  unfold Chan.send, Chan.recv. destruct (Chan.closed c); [discriminate|].
  destruct (Chan.len c <? Chan.cap c); [|discriminate].
  intros H. injection H as <-. cbn. destruct (Chan.buf c); discriminate.
Qed.

(** Where an error returned by [Next] comes from: the failed invocation of the
    factory, or the timer. *)
Lemma Next_error_origin (w w' : World) (r : option ptr) (E : error) :
  Next w = Done (r, Some E) w' ->
  r = None /\
  ((calls w' = S (calls w) /\ snd (newFn (pool w) (calls w)) = Some E) \/
   (calls w' = calls w /\ E = ErrTimeout)).
Proof.
  rewrite Next_eq.
  destruct (Chan.len (items (pool w)) <? 1) eqn:Hlen.
  - rewrite addNew_eq.
    destruct (curSize (pool w) >=? maxSize (pool w)).
    + destruct (Chan.recv (items (pool w))); intros H; inversion H; subst.
      split; [reflexivity|]. right. split; reflexivity.
    + destruct (snd (newFn (pool w) (calls w))) as [e|] eqn:Hnew.
      * intros H; inversion H; subst. split; [reflexivity|]. left.
        split; reflexivity.
      * destruct (Chan.send _ _) as [c| |] eqn:Hsend; try discriminate. cbn.
        pose proof (send_recv _ _ _ Hsend) as Hrecv.
        destruct (Chan.recv c); [|congruence]. intros H; inversion H.
  - destruct (Chan.recv (items (pool w))); intros H; inversion H; subst.
    split; [reflexivity|]. right. split; reflexivity.
Qed.

(** ** The accounting invariant *)

Lemma active_nonneg (h : list Item) : 0 <= active h.
Proof. induction h as [|it h IH]; cbn; [lia | destruct (closed it); lia]. Qed.

Lemma active_app (h1 h2 : list Item) : active (h1 ++ h2) = active h1 + active h2.
Proof. induction h1 as [|it h1 IH]; cbn; [reflexivity | rewrite IH; lia]. Qed.

Lemma active_pos (h : list Item) (i : nat) (it : Item) :
  h !! i = Some it -> closed it = false -> 1 <= active h.
Proof.
  revert i. induction h as [|x h IH]; intros [|i] Hi Hc; cbn in *; try discriminate.
  - injection Hi as ->. rewrite Hc. pose proof (active_nonneg h). lia.
  - specialize (IH i Hi Hc). destruct (closed x); lia.
Qed.

Lemma active_close (h : list Item) (i : nat) (it : Item) :
  h !! i = Some it -> closed it = false ->
  active (<[i := mkItem (value it) true]> h) = active h - 1.
Proof.
  revert i. induction h as [|x h IH]; intros [|i] Hi Hc; cbn in *; try discriminate.
  - injection Hi as ->. rewrite Hc. lia.
  - transitivity ((if closed x then 0 else 1) + (active h - 1)); [|lia].
    f_equal. exact (IH i Hi Hc).
Qed.

Lemma New_fresh_Inv (o : Options.t) (p : Pool) :
  is_int (Options.Size o) -> New o = Ok p -> Inv (fresh p).
Proof.
  unfold New, is_int, int_min, int_max. intros Hint Hnew.
  destruct (Options.New o) as [f|]; [|discriminate].
  injection Hnew as <-.
  split; cbn; try reflexivity.
  - unfold int_max. destruct (Z.leb_spec (Options.Size o) 0); lia.
  - destruct (Z.leb_spec (Options.Size o) 0); lia.
  - intros v Hv. inversion Hv.
  - intros i it Hi. rewrite lookup_nil in Hi. discriminate.
Qed.

Lemma Inv_int_curSize (w : World) :
  Inv w -> 0 <= curSize (pool w) <= maxSize (pool w) /\ maxSize (pool w) <= int_max.
Proof.
  intros [_ _ Hmax Hcount Hbound _ _].
  pose proof (active_nonneg (heap w)). unfold Chan.len in Hcount. lia.
Qed.

Lemma constructed_mono (w w' : World) (v : iface) :
  newFn (pool w') = newFn (pool w) -> (calls w <= calls w')%nat ->
  constructed w v -> constructed w' v.
Proof.
  intros Hf Hc [k [Hk Hv]]. exists k. rewrite Hf. split; [lia | exact Hv].
Qed.

Lemma Next_Inv (w : World) :
  Inv w -> Inv (world_of (Next w)) /\ (forall w', Next w <> Blocked w').
Proof.
  intros HI. pose proof (Inv_int_curSize w HI) as Hrange.
  destruct HI as [Hopen Hcap Hmax Hcount Hbound Hidle Hheld].
  unfold Chan.len in Hcount.
  destruct (Chan.buf (items (pool w))) as [|v rest] eqn:Hbuf.
  - destruct (Z.lt_ge_cases (curSize (pool w)) (maxSize (pool w))) as [Hlt|Hge].
    + destruct (newFn (pool w) (calls w)) as [v [e|]] eqn:Hnew.
      * rewrite (Next_grow_fails w v e Hbuf Hlt Hnew). split; [|discriminate].
        split; cbn; try assumption.
        -- unfold Chan.len. rewrite Hbuf. exact Hcount.
        -- rewrite Hbuf. intros x Hx. inversion Hx.
        -- intros i it Hi Hc.
           apply (constructed_mono w); [reflexivity | cbn; lia | eauto].
      * rewrite (Next_grow w v Hbuf Hopen ltac:(lia) Hlt Hnew). split; [|discriminate].
        rewrite wrap_id by (unfold is_int, int_min, int_max in *; lia).
        cbn in Hcount.
        split; cbn; try assumption; unfold Chan.len; try rewrite Hbuf; cbn.
        -- rewrite active_app. cbn. lia.
        -- lia.
        -- intros x Hx. inversion Hx.
        -- intros i it Hi Hc. apply lookup_app_Some in Hi as [Hi|[Hlen Hi]].
           ++ apply (constructed_mono w); [reflexivity | cbn; lia | eauto].
           ++ apply list_lookup_singleton_Some in Hi as [_ <-]. cbn.
              exists (calls w). cbn. split; [lia|exact Hnew].
    + rewrite (Next_full w Hbuf Hopen Hge). split; [|discriminate].
      split; cbn; try assumption.
      * unfold Chan.len. rewrite Hbuf. exact Hcount.
      * rewrite Hbuf. exact Hidle.
  - rewrite (Next_idle w v rest Hbuf). split; [|discriminate].
    cbn [length] in Hcount.
    split; cbn; try assumption.
    + unfold Chan.len. cbn. rewrite active_app. cbn. lia.
    + intros x Hx. apply (constructed_mono w); [reflexivity | cbn; lia |].
      apply Hidle. right. exact Hx.
    + intros i it Hi Hc. apply lookup_app_Some in Hi as [Hi|[Hlen Hi]].
      * apply (constructed_mono w); [reflexivity | cbn; lia | eauto].
      * apply list_lookup_singleton_Some in Hi as [_ <-]. cbn.
        apply (constructed_mono w); [reflexivity | cbn; lia |].
        apply Hidle. left.
Qed.

Lemma Restore_Inv (w : World) (i : ptr) :
  Inv w -> Inv (world_of (Restore i w)) /\ (forall w', Restore i w <> Blocked w').
Proof.
  intros HI. pose proof (Inv_int_curSize w HI) as Hrange.
  destruct (heap w !! i) as [it|] eqn:Hi.
  2: { rewrite (Restore_nil w i Hi). split; [exact HI | discriminate]. }
  destruct (closed it) eqn:Hc.
  { rewrite (Restore_closed w i it Hi Hc). split; [exact HI | discriminate]. }
  destruct HI as [Hopen Hcap Hmax Hcount Hbound Hidle Hheld].
  pose proof (active_pos _ _ _ Hi Hc) as Hpos.
  rewrite (Restore_active w i it Hi Hc Hopen ltac:(lia)). split; [|discriminate].
  unfold Chan.len in *.
  split; cbn; try assumption; try reflexivity.
  - pose proof (active_close _ _ _ Hi Hc) as Hac. cbn in Hac.
    unfold Chan.len. cbn. rewrite length_app. cbn. lia.
  - intros x Hx. apply elem_of_app in Hx as [Hx|Hx].
    + apply (constructed_mono w); [reflexivity | cbn; lia | eauto].
    + apply list_elem_of_singleton in Hx as ->.
      apply (constructed_mono w); [reflexivity | cbn; lia | eauto].
  - intros j jt Hj Hjc. destruct (decide (i = j)) as [<-|Hne].
    + rewrite list_lookup_insert_eq in Hj by (eapply lookup_lt_Some; eauto).
      injection Hj as <-. discriminate.
    + rewrite list_lookup_insert_ne in Hj by exact Hne.
      apply (constructed_mono w); [reflexivity | cbn; lia | eauto].
Qed.

Lemma Remove_Inv (w : World) (i : ptr) :
  Inv w -> Inv (world_of (Remove i w)) /\ (forall w', Remove i w <> Blocked w').
Proof.
  intros HI. pose proof (Inv_int_curSize w HI) as Hrange.
  destruct (heap w !! i) as [it|] eqn:Hi.
  2: { rewrite (Remove_nil w i Hi). split; [exact HI | discriminate]. }
  destruct (closed it) eqn:Hc.
  { rewrite (Remove_closed w i it Hi Hc). split; [exact HI | discriminate]. }
  destruct HI as [Hopen Hcap Hmax Hcount Hbound Hidle Hheld].
  pose proof (active_pos _ _ _ Hi Hc) as Hpos.
  rewrite (Remove_active w i it Hi Hc). split; [|discriminate].
  rewrite wrap_id by (unfold is_int, int_min, int_max, Chan.len in *; lia).
  unfold Chan.len in *.
  split; cbn; try assumption.
  - pose proof (active_close _ _ _ Hi Hc) as Hac. cbn in Hac.
    unfold Chan.len. lia.
  - lia.
  - intros j jt Hj Hjc. destruct (decide (i = j)) as [<-|Hne].
    + rewrite list_lookup_insert_eq in Hj by (eapply lookup_lt_Some; eauto).
      injection Hj as <-. discriminate.
    + rewrite list_lookup_insert_ne in Hj by exact Hne.
      apply (constructed_mono w); [reflexivity | cbn; lia | eauto].
Qed.

(** [addNew] on its own, whatever the channel holds. *)
Lemma addNew_cases (w : World) :
  Inv w ->
  (maxSize (pool w) <= curSize (pool w) /\ addNew w = Done None w) \/
  (curSize (pool w) < maxSize (pool w) /\
   exists v e,
     newFn (pool w) (calls w) = (v, Some e) /\
     addNew w = Done (Some e) (tick w)) \/
  (curSize (pool w) < maxSize (pool w) /\
   exists v,
     newFn (pool w) (calls w) = (v, None) /\
     addNew w =
       Done None
            (mkWorld (mkPool (Chan.mk (Chan.buf (items (pool w)) ++ [v])
                                      (Chan.cap (items (pool w))) false)
                             (newFn (pool w)) (maxSize (pool w))
                             (curSize (pool w) + 1) (timeout (pool w)))
                     (heap w) (S (calls w)) (clock w) (disposed w))).
Proof.
  intros HI. pose proof (Inv_int_curSize w HI) as Hrange.
  destruct HI as [Hopen Hcap Hmax Hcount Hbound Hidle Hheld].
  pose proof (active_nonneg (heap w)) as Hact.
  rewrite addNew_eq, Z.geb_leb.
  destruct (Z.leb_spec (maxSize (pool w)) (curSize (pool w))) as [Hge|Hlt].
  - left. split; [exact Hge | reflexivity].
  - right. destruct (newFn (pool w) (calls w)) as [v [e|]] eqn:Hnew; cbn [fst snd].
    + left. split; [exact Hlt|]. exists v, e. split; reflexivity.
    + right. split; [exact Hlt|]. exists v. split; [reflexivity|].
      unfold Chan.send. rewrite Hopen.
      destruct (Z.ltb_spec (Chan.len (items (pool w))) (Chan.cap (items (pool w))));
        [|lia].
      rewrite wrap_id by (unfold is_int, int_min, int_max in *; lia).
      reflexivity.
Qed.

Lemma addNew_Inv (w : World) :
  Inv w -> Inv (world_of (addNew w)) /\ (forall w', addNew w <> Blocked w').
Proof.
  intros HI. pose proof (Inv_int_curSize w HI) as Hrange.
  destruct (addNew_cases w HI)
    as [(_ & E)|[(Hlt & v & e & Hnew & E)|(Hlt & v & Hnew & E)]];
    rewrite E; (split; [|discriminate]); cbn [world_of]; [exact HI| |];
    destruct HI as [Hopen Hcap Hmax Hcount Hbound Hidle Hheld].
  - split; cbn; try assumption.
    + intros x Hx. apply (constructed_mono w); [reflexivity | cbn; lia | eauto].
    + intros i it Hi Hc.
      apply (constructed_mono w); [reflexivity | cbn; lia | eauto].
  - unfold Chan.len in Hcount.
    split; cbn; try assumption; try reflexivity.
    + unfold Chan.len. cbn. rewrite length_app. cbn. lia.
    + lia.
    + intros x Hx. apply elem_of_app in Hx as [Hx|Hx].
      * apply (constructed_mono w); [reflexivity | cbn; lia | eauto].
      * apply list_elem_of_singleton in Hx as ->.
        exists (calls w). cbn. split; [lia | exact Hnew].
    + intros i it Hi Hc.
      apply (constructed_mono w); [reflexivity | cbn; lia | eauto].
Qed.

(** The [select] of [Next] on its own. *)
Lemma Next_select_cases (w : World) :
  Chan.closed (items (pool w)) = false ->
  (exists v rest,
     Chan.buf (items (pool w)) = v :: rest /\
     Next_select w =
       Done (Some (length (heap w)), None)
            (mkWorld (set_items (pool w)
                        (Chan.mk rest (Chan.cap (items (pool w))) false))
                     (heap w ++ [mkItem v false]) (calls w) (clock w)
                     (disposed w))) \/
  (Chan.buf (items (pool w)) = [] /\
   Next_select w =
     Done (None, Some ErrTimeout)
          (mkWorld (pool w) (heap w) (calls w) (clock w + timeout (pool w))
                   (disposed w))).
Proof.
  intros Hopen. rewrite Next_select_eq. unfold Chan.recv. rewrite Hopen.
  destruct (Chan.buf (items (pool w))) as [|v rest].
  - right. split; reflexivity.
  - left. exists v, rest. split; reflexivity.
Qed.

Lemma Next_select_Inv (w : World) :
  Inv w ->
  Inv (world_of (Next_select w)) /\ (forall w', Next_select w <> Blocked w').
Proof.
  intros HI. pose proof HI as [Hopen Hcap Hmax Hcount Hbound Hidle Hheld].
  destruct (Next_select_cases w Hopen) as [(v & rest & Hbuf & E)|(Hbuf & E)];
    rewrite E; (split; [|discriminate]); cbn [world_of].
  - unfold Chan.len in Hcount. rewrite Hbuf in Hcount, Hidle.
    cbn [length] in Hcount.
    split; cbn; try assumption; try reflexivity.
    + unfold Chan.len. cbn. rewrite active_app. cbn. lia.
    + intros x Hx. apply (constructed_mono w); [reflexivity | cbn; lia |].
      apply Hidle. right. exact Hx.
    + intros i it Hi Hc. apply lookup_app_Some in Hi as [Hi|[Hlen Hi]].
      * apply (constructed_mono w); [reflexivity | cbn; lia | eauto].
      * apply list_lookup_singleton_Some in Hi as [_ <-]. cbn.
        apply (constructed_mono w); [reflexivity | cbn; lia |].
        apply Hidle. left.
  - split; cbn; assumption.
Qed.

Lemma forget_Inv (A : Type) (m : M A) (w : World) :
  Inv (world_of (m w)) /\ (forall w', m w <> Blocked w') ->
  Inv (world_of (forget (m w))) /\ (forall w', forget (m w) <> Blocked w').
Proof.
  intros [H1 H2]. destruct (m w) as [a w1|msg w1|w1]; cbn in *.
  - split; [exact H1 | discriminate].
  - split; [exact H1 | discriminate].
  - exfalso. exact (H2 w1 eq_refl).
Qed.

Lemma world_of_forget (A : Type) (r : outcome A) : world_of (forget r) = world_of r.
Proof. destruct r; reflexivity. Qed.

Lemma exec_Inv (o : op) (w : World) :
  Inv w -> Inv (world_of (exec o w)) /\ (forall w', exec o w <> Blocked w').
Proof.
  intros HI. destruct o as [|i|i| |]; unfold exec.
  - apply forget_Inv. exact (Next_Inv w HI).
  - exact (Restore_Inv w i HI).
  - exact (Remove_Inv w i HI).
  - apply forget_Inv. exact (addNew_Inv w HI).
  - apply forget_Inv. exact (Next_select_Inv w HI).
Qed.

Lemma run_Inv (ops : list op) (w : World) : Inv w -> Inv (run ops w).
Proof.
  revert w. induction ops as [|o ops IH]; intros w HI; cbn; [exact HI|].
  destruct (exec_Inv o w HI) as [H1 H2].
  destruct (exec o w) as [a w'|msg w'|w'] eqn:E; cbn in H1.
  - exact (IH w' H1).
  - exact (IH w' H1).
  - exact H1.
Qed.

Lemma run_app (ops1 ops2 : list op) (w : World) :
  Inv w -> run (ops1 ++ ops2) w = run ops2 (run ops1 w).
Proof.
  revert w. induction ops1 as [|o ops IH]; intros w HI; cbn; [reflexivity|].
  destruct (exec_Inv o w HI) as [H1 H2].
  destruct (exec o w) as [a w'|msg w'|w'] eqn:E; cbn in H1.
  - exact (IH w' H1).
  - exact (IH w' H1).
  - exfalso. exact (H2 w' eq_refl).
Qed.

Lemma same_config_refl (w : World) : same_config w w.
Proof. repeat split. Qed.

Lemma same_config_trans (w1 w2 w3 : World) :
  same_config w1 w2 -> same_config w2 w3 -> same_config w1 w3.
Proof. intros (A1 & A2 & A3) (B1 & B2 & B3). repeat split; congruence. Qed.

Lemma keeps_ret (A : Type) (a : A) : keeps_config (ret a).
Proof. intros w. repeat split. Qed.

Lemma keeps_panic (A : Type) (msg : string) : keeps_config (@panic A msg).
Proof. intros w. repeat split. Qed.

Lemma keeps_bind (A B : Type) (m : M A) (k : A -> M B) :
  keeps_config m -> (forall a, keeps_config (k a)) -> keeps_config (bind m k).
Proof.
  intros Hm Hk w. unfold bind. specialize (Hm w).
  destruct (m w) as [a w'|msg w'|w']; cbn in *; try exact Hm.
  exact (same_config_trans _ _ _ Hm (Hk a w')).
Qed.

Lemma keeps_getPool : keeps_config getPool.
Proof. intros w. repeat split. Qed.

Lemma keeps_call_newFn : keeps_config call_newFn.
Proof. intros w. repeat split. Qed.

Lemma keeps_send_items (v : iface) : keeps_config (send_items v).
Proof.
  intros w. unfold send_items.
  destruct (Chan.send (items (pool w)) v); repeat split.
Qed.

Lemma keeps_incr_curSize : keeps_config incr_curSize.
Proof. intros w. repeat split. Qed.

Lemma keeps_decr_curSize : keeps_config decr_curSize.
Proof. intros w. repeat split. Qed.

Lemma keeps_select_items : keeps_config select_items.
Proof.
  intros w. unfold select_items.
  destruct (Chan.recv (items (pool w))); repeat split.
Qed.

Lemma keeps_new_Item (v : iface) : keeps_config (new_Item v).
Proof. intros w. repeat split. Qed.

Lemma keeps_deref (i : ptr) : keeps_config (deref i).
Proof. intros w. unfold deref. destruct (heap w !! i); repeat split. Qed.

Lemma keeps_set_closed (i : ptr) : keeps_config (set_closed i).
Proof. intros w. unfold set_closed. destruct (heap w !! i); repeat split. Qed.

Lemma keeps_close_items : keeps_config close_items.
Proof.
  intros w. unfold close_items.
  destruct (Chan.close (items (pool w))); repeat split.
Qed.

Lemma keeps_range_items : keeps_config range_items.
Proof.
  intros w. unfold range_items.
  destruct (drain _ _) as [[err rest] log]. repeat split.
Qed.

Create HintDb config.
#[local] Hint Resolve keeps_ret keeps_panic keeps_getPool keeps_call_newFn
  keeps_send_items keeps_incr_curSize keeps_decr_curSize keeps_select_items
  keeps_new_Item keeps_deref keeps_set_closed keeps_close_items
  keeps_range_items : config.

Ltac config :=
  repeat first
    [ solve [auto with config]
    | apply keeps_bind; [|intros ?]
    | match goal with
      | |- keeps_config (if ?b then _ else _) => destruct b
      | |- keeps_config (match ?x with _ => _ end) => destruct x
      end ].

Lemma keeps_addNew : keeps_config addNew.
Proof. unfold addNew. config. Qed.

Lemma keeps_Next_select : keeps_config Next_select.
Proof. unfold Next_select. config. Qed.

Lemma Next_config : keeps_config Next.
Proof.
  unfold Next. pose proof keeps_addNew. pose proof keeps_Next_select. config.
Qed.

Lemma Restore_config (i : ptr) : keeps_config (Restore i).
Proof. unfold Restore, restore. config. Qed.

Lemma Remove_config (i : ptr) : keeps_config (Remove i).
Proof. unfold Remove, remove. config. Qed.

Lemma Close_config : keeps_config Close.
Proof. unfold Close. config. Qed.

Lemma run_config (ops : list op) (w : World) : same_config w (run ops w).
Proof.
  revert w. induction ops as [|o ops IH]; intros w; cbn.
  - repeat split.
  - assert (Hstep : same_config w (world_of (exec o w))).
    { destruct o; unfold exec; try rewrite world_of_forget;
        [ apply Next_config | apply Restore_config | apply Remove_config
        | apply keeps_addNew | apply keeps_Next_select ]. }
    destruct (exec o w) as [a w'|msg w'|w']; cbn in Hstep; try exact Hstep.
    + exact (same_config_trans _ _ _ Hstep (IH w')).
    + exact (same_config_trans _ _ _ Hstep (IH w')).
Qed.

(** ** Reachable worlds *)

Lemma reachable_Inv (w : World) : reachable w -> Inv w.
Proof.
  intros (o & p & ops & Hint & Hnew & ->).
  apply run_Inv. exact (New_fresh_Inv o p Hint Hnew).
Qed.

Lemma reachable_step (w : World) (o : op) :
  reachable w -> reachable (world_of (exec o w)).
Proof.
  intros Hr. pose proof (reachable_Inv w Hr) as HI.
  destruct Hr as (opt & p & ops & Hint & Hnew & ->).
  exists opt, p, (ops ++ [o]). split; [exact Hint|]. split; [exact Hnew|].
  rewrite run_app by exact (New_fresh_Inv opt p Hint Hnew). cbn [run].
  destruct (exec_Inv o _ HI) as [_ Hnb].
  destruct (exec o (run ops (fresh p))) as [a w'|msg w'|w']; try reflexivity.
Qed.

(** What one action does to the two counters, in a world that satisfies the
    invariant: either the factory is not invoked and [curSize] does not grow,
    or it is invoked once, below capacity, and [curSize] grows by one exactly
    when the factory succeeded. *)
Lemma addNew_counters (w : World) :
  Inv w ->
  let w' := world_of (addNew w) in
  (calls w' = calls w /\ curSize (pool w') <= curSize (pool w)) \/
  (calls w' = S (calls w) /\
   curSize (pool w) < maxSize (pool w) /\
   curSize (pool w') =
     match snd (newFn (pool w) (calls w)) with
     | Some _ => curSize (pool w)
     | None => curSize (pool w) + 1
     end).
Proof.
  intros HI.
  destruct (addNew_cases w HI)
    as [(_ & E)|[(Hlt & v & e & Hnew & E)|(Hlt & v & Hnew & E)]];
    rewrite E; cbn.
  - left. split; [reflexivity | lia].
  - right. rewrite Hnew. repeat split. exact Hlt.
  - right. rewrite Hnew. repeat split. exact Hlt.
Qed.

Lemma exec_counters (w : World) (o : op) :
  Inv w ->
  let w' := world_of (exec o w) in
  (calls w' = calls w /\ curSize (pool w') <= curSize (pool w)) \/
  (calls w' = S (calls w) /\
   curSize (pool w) < maxSize (pool w) /\
   curSize (pool w') =
     match snd (newFn (pool w) (calls w)) with
     | Some _ => curSize (pool w)
     | None => curSize (pool w) + 1
     end).
Proof.
  intros HI. pose proof (Inv_int_curSize w HI) as Hrange.
  pose proof HI as [Hopen Hcap Hmax Hcount Hbound Hidle Hheld].
  destruct o as [|i|i| |]; unfold exec; cbn zeta.
  - rewrite world_of_forget.
    destruct (Chan.buf (items (pool w))) as [|v rest] eqn:Hbuf.
    + destruct (Z.lt_ge_cases (curSize (pool w)) (maxSize (pool w))) as [Hlt|Hge].
      * right. destruct (newFn (pool w) (calls w)) as [v [e|]] eqn:Hnew.
        -- rewrite (Next_grow_fails w v e Hbuf Hlt Hnew). cbn. repeat split. exact Hlt.
        -- rewrite (Next_grow w v Hbuf Hopen ltac:(lia) Hlt Hnew). cbn.
           rewrite wrap_id by (unfold is_int, int_min, int_max in *; lia).
           repeat split. exact Hlt.
      * left. rewrite (Next_full w Hbuf Hopen Hge). cbn. split; [reflexivity|lia].
    + left. rewrite (Next_idle w v rest Hbuf). cbn. split; [reflexivity|lia].
  - left. destruct (heap w !! i) as [it|] eqn:Hi.
    2: { rewrite (Restore_nil w i Hi). cbn. split; [reflexivity|lia]. }
    destruct (closed it) eqn:Hc.
    { rewrite (Restore_closed w i it Hi Hc). cbn. split; [reflexivity|lia]. }
    pose proof (active_pos _ _ _ Hi Hc) as Hpos.
    rewrite (Restore_active w i it Hi Hc Hopen ltac:(lia)). cbn.
    split; [reflexivity|lia].
  - left. destruct (heap w !! i) as [it|] eqn:Hi.
    2: { rewrite (Remove_nil w i Hi). cbn. split; [reflexivity|lia]. }
    destruct (closed it) eqn:Hc.
    { rewrite (Remove_closed w i it Hi Hc). cbn. split; [reflexivity|lia]. }
    pose proof (active_pos _ _ _ Hi Hc) as Hpos.
    rewrite (Remove_active w i it Hi Hc). cbn.
    rewrite wrap_id by (unfold is_int, int_min, int_max, Chan.len in *; lia).
    split; [reflexivity|lia].
  - rewrite world_of_forget. exact (addNew_counters w HI).
  - rewrite world_of_forget. left.
    destruct (Next_select_cases w Hopen) as [(v & rest & _ & E)|(_ & E)];
      rewrite E; cbn; split; try reflexivity; lia.
Qed.

(** ** The claims *)

(** C1.  For every program of [Next], [Restore] and [Remove] run on a
    freshly constructed pool, also when the two halves of concurrent calls of
    [Next] interleave, the world it reaches satisfies
    [0 <= curSize <= maxSize] and [len(items) <= curSize]; and whatever
    action comes next, the factory is invoked (and [curSize] grows) only when
    [curSize < maxSize] held at that moment, by one invocation and by at most
    one value. *)
Theorem C1_live_count_invariant (o : Options.t) (p : Pool) (ops : list op) :
  is_int (Options.Size o) ->
  New o = Ok p ->
  let w := run ops (fresh p) in
  0 <= curSize (pool w) <= maxSize (pool w) /\
  Chan.len (items (pool w)) <= curSize (pool w) /\
  forall next : op,
    let w' := world_of (exec next w) in
    (calls w' <> calls w ->
     curSize (pool w) < maxSize (pool w) /\ calls w' = S (calls w)) /\
    (curSize (pool w) < curSize (pool w') ->
     curSize (pool w) < maxSize (pool w) /\
     calls w' = S (calls w) /\ curSize (pool w') = curSize (pool w) + 1).
Proof.
  intros Hint Hnew w.
  assert (HI : Inv w) by exact (run_Inv ops _ (New_fresh_Inv o p Hint Hnew)).
  pose proof (Inv_int_curSize w HI) as Hrange.
  split; [lia|]. split.
  - pose proof (inv_count w HI). pose proof (active_nonneg (heap w)). lia.
  - intros next w'. destruct (exec_counters w next HI) as [[Hc Hs]|(Hc & Hlt & Hs)];
      fold w' in Hc, Hs.
    + split; [congruence | lia].
    + split; [intros _; split; [exact Hlt | exact Hc]|].
      intros Hgrow. destruct (snd (newFn (pool w) (calls w))); [lia|].
      repeat split; assumption.
Qed.

Lemma C1_live_count_invariant_witness :
  is_int (Options.Size demo_options) /\
  New demo_options = Ok demo_pool /\
  let w := run demo_program (fresh demo_pool) in
  0 <= curSize (pool w) <= maxSize (pool w) /\
  Chan.len (items (pool w)) <= curSize (pool w) /\
  forall next : op,
    let w' := world_of (exec next w) in
    (calls w' <> calls w ->
     curSize (pool w) < maxSize (pool w) /\ calls w' = S (calls w)) /\
    (curSize (pool w) < curSize (pool w') ->
     curSize (pool w) < maxSize (pool w) /\
     calls w' = S (calls w) /\ curSize (pool w') = curSize (pool w) + 1).
Proof.
  assert (Hint : is_int (Options.Size demo_options))
    by (unfold is_int, int_min, int_max; cbn; lia).
  split; [exact Hint|]. split; [reflexivity|].
  exact (C1_live_count_invariant demo_options demo_pool demo_program Hint eq_refl).
Defined.

(** *** Items *)

(** The four ways [Next] can go when the invariant holds. *)
Lemma Next_cases (w : World) :
  Inv w ->
  (exists v rest,
     Chan.buf (items (pool w)) = v :: rest /\
     Next w =
       Done (Some (length (heap w)), None)
            (mkWorld (set_items (pool w)
                        (Chan.mk rest (Chan.cap (items (pool w))) false))
                     (heap w ++ [mkItem v false]) (calls w) (clock w)
                     (disposed w))) \/
  (exists v,
     Chan.buf (items (pool w)) = [] /\
     curSize (pool w) < maxSize (pool w) /\
     newFn (pool w) (calls w) = (v, None) /\
     Next w =
       Done (Some (length (heap w)), None)
            (mkWorld (set_curSize (pool w) (curSize (pool w) + 1))
                     (heap w ++ [mkItem v false]) (S (calls w)) (clock w)
                     (disposed w))) \/
  (exists v e,
     Chan.buf (items (pool w)) = [] /\
     curSize (pool w) < maxSize (pool w) /\
     newFn (pool w) (calls w) = (v, Some e) /\
     Next w = Done (None, Some e) (tick w)) \/
  (Chan.buf (items (pool w)) = [] /\
   maxSize (pool w) <= curSize (pool w) /\
   Next w =
     Done (None, Some ErrTimeout)
          (mkWorld (pool w) (heap w) (calls w) (clock w + timeout (pool w))
                   (disposed w))).
Proof.
  intros HI. pose proof (Inv_int_curSize w HI) as Hrange.
  destruct HI as [Hopen Hcap Hmax Hcount Hbound Hidle Hheld].
  destruct (Chan.buf (items (pool w))) as [|v rest] eqn:Hbuf.
  - destruct (Z.lt_ge_cases (curSize (pool w)) (maxSize (pool w))) as [Hlt|Hge].
    + destruct (newFn (pool w) (calls w)) as [v [e|]] eqn:Hnew.
      * right. right. left. exists v, e. repeat split; try assumption.
        exact (Next_grow_fails w v e Hbuf Hlt Hnew).
      * right. left. exists v. repeat split; try assumption.
        rewrite (Next_grow w v Hbuf Hopen ltac:(lia) Hlt Hnew).
        rewrite wrap_id by (unfold is_int, int_min, int_max in *; lia).
        reflexivity.
    + right. right. right. repeat split; try assumption.
      exact (Next_full w Hbuf Hopen Hge).
  - left. exists v, rest. split; [reflexivity|].
    rewrite (Next_idle w v rest Hbuf), Hopen. reflexivity.
Qed.

(** A successful [Next] returns a pointer to a new item that is not closed. *)
Lemma Next_item (w w1 : World) (i : ptr) (e : option error) :
  Inv w -> Next w = Done (Some i, e) w1 ->
  e = None /\ i = length (heap w) /\
  exists v, heap w1 = heap w ++ [mkItem v false].
Proof.
  intros HI Hnext.
  destruct (Next_cases w HI)
    as [(v & rest & _ & E)|[(v & _ & _ & _ & E)|[(v & e' & _ & _ & _ & E)|(_ & _ & E)]]];
    rewrite E in Hnext; inversion Hnext; subst; cbn; eauto.
Qed.

(** The heap only grows at its end under [Next]. *)
Lemma Next_heap (w : World) :
  Inv w -> exists tail, heap (world_of (Next w)) = heap w ++ tail.
Proof.
  intros HI.
  destruct (Next_cases w HI)
    as [(v & rest & _ & E)|[(v & _ & _ & _ & E)|[(v & e' & _ & _ & _ & E)|(_ & _ & E)]]];
    rewrite E; cbn; eauto; exists []; rewrite app_nil_r; reflexivity.
Qed.

Lemma grows_at_end_keeps (h tail : list Item) (i : ptr) (it : Item) :
  h !! i = Some it -> (h ++ tail) !! i = Some it.
Proof. intros Hi. apply lookup_app_l_Some. exact Hi. Qed.

(** An item is written only by its own first disposition. *)
Lemma exec_keeps_item (w : World) (o : op) (i : ptr) (it : Item) :
  Inv w -> heap w !! i = Some it ->
  touches i o = false \/ closed it = true ->
  heap (world_of (exec o w)) !! i = Some it.
Proof.
  intros HI Hi Hkeep.
  pose proof HI as [Hopen Hcap Hmax Hcount Hbound Hidle Hheld].
  pose proof (Inv_int_curSize w HI) as Hrange.
  destruct o as [|j|j| |]; unfold exec.
  - rewrite world_of_forget. destruct (Next_heap w HI) as [tail ->].
    exact (grows_at_end_keeps _ _ _ _ Hi).
  - destruct (heap w !! j) as [jt|] eqn:Hj.
    2: { rewrite (Restore_nil w j Hj). exact Hi. }
    destruct (closed jt) eqn:Hc.
    { rewrite (Restore_closed w j jt Hj Hc). exact Hi. }
    pose proof (active_pos _ _ _ Hj Hc) as Hpos. unfold Chan.len in Hcount.
    rewrite (Restore_active w j jt Hj Hc Hopen ltac:(unfold Chan.len; lia)). cbn.
    assert (Hne : j <> i).
    { intros ->. destruct Hkeep as [Ht|Ht].
      - cbn in Ht. rewrite Nat.eqb_refl in Ht. discriminate.
      - congruence. }
    rewrite list_lookup_insert_ne by exact Hne. exact Hi.
  - destruct (heap w !! j) as [jt|] eqn:Hj.
    2: { rewrite (Remove_nil w j Hj). exact Hi. }
    destruct (closed jt) eqn:Hc.
    { rewrite (Remove_closed w j jt Hj Hc). exact Hi. }
    rewrite (Remove_active w j jt Hj Hc). cbn.
    assert (Hne : j <> i).
    { intros ->. destruct Hkeep as [Ht|Ht].
      - cbn in Ht. rewrite Nat.eqb_refl in Ht. discriminate.
      - congruence. }
    rewrite list_lookup_insert_ne by exact Hne. exact Hi.
  - rewrite world_of_forget.
    destruct (addNew_cases w HI)
      as [(_ & E)|[(_ & v & e & _ & E)|(_ & v & _ & E)]]; rewrite E; exact Hi.
  - rewrite world_of_forget.
    destruct (Next_select_cases w Hopen) as [(v & rest & _ & E)|(_ & E)];
      rewrite E; cbn [world_of heap]; [|exact Hi].
    exact (grows_at_end_keeps _ _ _ _ Hi).
Qed.

Lemma run_keeps_item (ops : list op) (w : World) (i : ptr) (it : Item) :
  Inv w -> heap w !! i = Some it ->
  leaves_alone i ops = true \/ closed it = true ->
  heap (run ops w) !! i = Some it.
Proof.
  revert w. induction ops as [|o ops IH]; intros w HI Hi Hkeep; cbn; [exact Hi|].
  assert (Hhead : touches i o = false \/ closed it = true).
  { destruct Hkeep as [Hk|Hk]; [left|right; exact Hk].
    cbn in Hk. apply andb_true_iff in Hk as [Hk _].
    destruct (touches i o); [discriminate|reflexivity]. }
  assert (Htail : leaves_alone i ops = true \/ closed it = true).
  { destruct Hkeep as [Hk|Hk]; [left|right; exact Hk].
    cbn in Hk. apply andb_true_iff in Hk as [_ Hk]. exact Hk. }
  pose proof (exec_keeps_item w o i it HI Hi Hhead) as Hstep.
  destruct (exec_Inv o w HI) as [HI' Hnb].
  destruct (exec o w) as [a w'|msg w'|w']; cbn in Hstep, HI'.
  - exact (IH w' HI' Hstep Htail).
  - exact (IH w' HI' Hstep Htail).
  - exact Hstep.
Qed.

(** The first disposition of an item succeeds and closes it. *)
Lemma dispose_first (w : World) (d : disposition) (i : ptr) (it : Item) :
  Inv w -> heap w !! i = Some it -> closed it = false ->
  exists w', dispose d i w = Done tt w' /\ Inv w' /\
             heap w' !! i = Some (mkItem (value it) true).
Proof.
  intros HI Hi Hc.
  pose proof HI as [Hopen Hcap Hmax Hcount Hbound Hidle Hheld].
  pose proof (active_pos _ _ _ Hi Hc) as Hpos.
  pose proof (lookup_lt_Some _ _ _ Hi) as Hlt.
  destruct d; cbn [dispose].
  - pose proof (Restore_Inv w i HI) as [HI' _].
    rewrite (Restore_active w i it Hi Hc Hopen ltac:(lia)) in *. cbn in HI'.
    eexists. split; [reflexivity|]. split; [exact HI'|]. cbn.
    apply list_lookup_insert_eq. exact Hlt.
  - pose proof (Remove_Inv w i HI) as [HI' _].
    rewrite (Remove_active w i it Hi Hc) in *. cbn in HI'.
    eexists. split; [reflexivity|]. split; [exact HI'|]. cbn.
    apply list_lookup_insert_eq. exact Hlt.
Qed.

(** Any disposition of a closed item panics and changes nothing. *)
Lemma dispose_closed (w : World) (d : disposition) (i : ptr) (it : Item) :
  heap w !! i = Some it -> closed it = true ->
  dispose d i w = Panic "result: already closed" w.
Proof.
  intros Hi Hc. destruct d; cbn [dispose].
  - exact (Restore_closed w i it Hi Hc).
  - exact (Remove_closed w i it Hi Hc).
Qed.

(** C2.  For every item returned by a successful [Next] in a reachable world,
    whatever the caller does in between to other items, the first call of
    [Restore] or [Remove] on it succeeds; and whatever the caller does after
    that, a second call of [Restore] or [Remove] on the same item, in any of
    the four combinations, panics with "result: already closed" and leaves
    the world as it was. *)
Theorem C2_exactly_once_disposition
    (w w1 : World) (i : ptr) (between after : list op)
    (first second : disposition) :
  reachable w ->
  Next w = Done (Some i, None) w1 ->
  leaves_alone i between = true ->
  exists w3,
    dispose first i (run between w1) = Done tt w3 /\
    dispose second i (run after w3) =
      Panic "result: already closed" (run after w3).
Proof.
  intros Hr Hnext Hbetween.
  pose proof (reachable_Inv w Hr) as HI.
  destruct (Next_item w w1 i None HI Hnext) as (_ & -> & v & Hheap).
  assert (HI1 : Inv w1).
  { pose proof (Next_Inv w HI) as [H _]. rewrite Hnext in H. exact H. }
  assert (Hi1 : heap w1 !! length (heap w) = Some (mkItem v false)).
  { rewrite Hheap. apply list_lookup_middle. reflexivity. }
  pose proof (run_keeps_item between w1 _ _ HI1 Hi1 (or_introl Hbetween)) as Hi2.
  destruct (dispose_first (run between w1) first _ _ (run_Inv between w1 HI1) Hi2 eq_refl)
    as (w3 & Hfirst & HI3 & Hi3).
  exists w3. split; [exact Hfirst|].
  apply (dispose_closed _ second _ (mkItem v true)); [|reflexivity].
  exact (run_keeps_item after w3 _ _ HI3 Hi3 (or_intror eq_refl)).
Qed.

Lemma C2_exactly_once_disposition_witness :
  let w := fresh demo_pool in
  let w1 := world_of (Next w) in
  reachable w /\
  Next w = Done (Some 0%nat, None) w1 /\
  leaves_alone 0 [OpNext; OpRestore 1%nat] = true /\
  exists w3,
    dispose ByRestore 0%nat (run [OpNext; OpRestore 1%nat] w1) = Done tt w3 /\
    dispose ByRemove 0%nat (run [OpNext] w3) =
      Panic "result: already closed" (run [OpNext] w3).
Proof.
  intros w w1.
  assert (Hr : reachable w).
  { exists demo_options, demo_pool, []. split; [|split; reflexivity].
    unfold is_int, int_min, int_max. cbn. lia. }
  split; [exact Hr|]. split; [reflexivity|]. split; [reflexivity|].
  exact (C2_exactly_once_disposition w w1 0%nat [OpNext; OpRestore 1%nat]
           [OpNext] ByRestore ByRemove Hr eq_refl eq_refl).
Defined.

(** C3.  In every world, when the factory is invoked during a call of [Next]
    and fails with [E], the call returns exactly [(nil, E)], and the pool is
    left as it was: [curSize] is not incremented and nothing is added to the
    channel; no item is created and no timer is waited for. *)
Theorem C3_factory_error_propagated (w : World) (v : iface) (E : error) :
  newFn (pool w) (calls w) = (v, Some E) ->
  calls (world_of (Next w)) <> calls w ->
  exists w',
    Next w = Done (None, Some E) w' /\
    pool w' = pool w /\
    curSize (pool w') = curSize (pool w) /\
    items (pool w') = items (pool w) /\
    heap w' = heap w /\
    clock w' = clock w /\
    calls w' = S (calls w).
Proof.
  intros Hnew Hcalled.
  destruct (Next_calls w) as [(Hbuf & Hlt & _)|(_ & Hsame)]; [|congruence].
  exists (tick w). rewrite (Next_grow_fails w v E Hbuf Hlt Hnew).
  repeat split.
Qed.

Lemma C3_factory_error_propagated_witness :
  let w := fresh failing_pool in
  newFn (pool w) (calls w) = (nil, Some errBasic) /\
  calls (world_of (Next w)) <> calls w /\
  exists w',
    Next w = Done (None, Some errBasic) w' /\
    pool w' = pool w /\
    curSize (pool w') = curSize (pool w) /\
    items (pool w') = items (pool w) /\
    heap w' = heap w /\
    clock w' = clock w /\
    calls w' = S (calls w).
Proof.
  intros w.
  assert (Hcalled : calls (world_of (Next w)) <> calls w)
    by (vm_compute; discriminate).
  split; [reflexivity|]. split; [exact Hcalled|].
  exact (C3_factory_error_propagated w nil errBasic eq_refl Hcalled).
Defined.

(** *** Shutdown *)

Lemma drain_all (buf log : list iface) :
  all_close_ok buf = true -> drain buf log = (None, [], log ++ closers buf).
Proof.
  revert log. induction buf as [|v buf IH]; intros log Hok; cbn in *.
  - rewrite app_nil_r. reflexivity.
  - destruct (closer v) as [[e|]|]; [discriminate| |].
    + rewrite (IH _ Hok), <- app_assoc. reflexivity.
    + exact (IH _ Hok).
Qed.

Lemma drain_stops (pre post log : list iface) (v : iface) (e : error) :
  all_close_ok pre = true -> closer v = Some (Some e) ->
  drain (pre ++ v :: post) log = (Some e, post, log ++ closers pre ++ [v]).
Proof.
  revert log. induction pre as [|x pre IH]; intros log Hok Hv; cbn in *.
  - rewrite Hv. reflexivity.
  - destruct (closer x) as [[e'|]|]; [discriminate| |].
    + rewrite (IH _ Hok Hv), <- app_assoc. reflexivity.
    + exact (IH _ Hok Hv).
Qed.

Lemma Close_eq (w : World) :
  Chan.closed (items (pool w)) = false ->
  Close w =
    let c := items (pool w) in
    let '(err, rest, log) := drain (Chan.buf c) (disposed w) in
    Done err
         (mkWorld (set_items (pool w) (Chan.mk rest (Chan.cap c) true))
                  (heap w) (calls w) (clock w) log).
Proof.
  intros Hopen. unfold Close, bind, close_items, Chan.close. rewrite Hopen.
  unfold range_items. cbn.
  destruct (drain (Chan.buf (items (pool w))) (disposed w)) as [[err rest] log].
  reflexivity.
Qed.

(** C4.  On a pool that has not been closed before, [Close] closes the
    channel and drains it in order.  If the first value whose [Close] method
    fails is [v], after the values [pre], then [Close] returns the error of
    [v]; the [Close] method ran, in order, on the values of [pre] that have
    one and on [v], and on nothing else: the values of [pre] without the
    method were skipped, and the values [post] stay in the channel,
    undisposed.  If no [Close] method fails, [Close] returns nil, the method
    ran on every idle value that has one, in order, and the channel is
    empty. *)
Theorem C4_Close_drains_until_first_error (w : World) :
  Chan.closed (items (pool w)) = false ->
  (forall (pre post : list iface) (v : iface) (e : error),
     Chan.buf (items (pool w)) = pre ++ v :: post ->
     all_close_ok pre = true ->
     closer v = Some (Some e) ->
     Close w =
       Done (Some e)
            (mkWorld (set_items (pool w)
                        (Chan.mk post (Chan.cap (items (pool w))) true))
                     (heap w) (calls w) (clock w)
                     (disposed w ++ closers pre ++ [v]))) /\
  (all_close_ok (Chan.buf (items (pool w))) = true ->
   Close w =
     Done None
          (mkWorld (set_items (pool w)
                      (Chan.mk [] (Chan.cap (items (pool w))) true))
                   (heap w) (calls w) (clock w)
                   (disposed w ++ closers (Chan.buf (items (pool w)))))).
Proof.
  intros Hopen. split.
  - intros pre post v e Hbuf Hok Hv.
    rewrite (Close_eq w Hopen). cbn zeta.
    rewrite Hbuf, (drain_stops pre post (disposed w) v e Hok Hv). reflexivity.
  - intros Hok. rewrite (Close_eq w Hopen). cbn zeta.
    rewrite (drain_all _ (disposed w) Hok). reflexivity.
Qed.

Lemma C4_Close_drains_until_first_error_witness :
  let w := idle_world [Plain 7; Closer 1 None; Closer 2 (Some errBasic);
                       Closer 3 None] in
  let w2 := idle_world [Plain 7; Closer 1 None] in
  (Chan.closed (items (pool w)) = false /\
   Chan.buf (items (pool w)) =
     [Plain 7; Closer 1 None] ++ Closer 2 (Some errBasic) :: [Closer 3 None] /\
   all_close_ok [Plain 7; Closer 1 None] = true /\
   closer (Closer 2 (Some errBasic)) = Some (Some errBasic) /\
   Close w =
     Done (Some errBasic)
          (mkWorld (set_items (pool w) (Chan.mk [Closer 3 None] 4 true))
                   [] 4 0 [Closer 1 None; Closer 2 (Some errBasic)])) /\
  (Chan.closed (items (pool w2)) = false /\
   all_close_ok (Chan.buf (items (pool w2))) = true /\
   Close w2 =
     Done None
          (mkWorld (set_items (pool w2) (Chan.mk [] 4 true))
                   [] 4 0 [Closer 1 None])).
Proof.
  intros w w2. split.
  - split; [reflexivity|]. split; [reflexivity|]. split; [reflexivity|].
    split; [reflexivity|].
    destruct (C4_Close_drains_until_first_error w eq_refl) as [Hstop _].
    exact (Hstop [Plain 7; Closer 1 None] [Closer 3 None]
             (Closer 2 (Some errBasic)) errBasic eq_refl eq_refl eq_refl).
  - split; [reflexivity|]. split; [reflexivity|].
    destruct (C4_Close_drains_until_first_error w2 eq_refl) as [_ Hall].
    exact (Hall eq_refl).
Defined.

(** *** The timeout error *)

(** C5 as stated fails: [Next] returns a factory error verbatim, and nothing
    keeps a factory from returning [ErrTimeout].  Here the factory is invoked
    and fails, no timer is waited for, and the error that [Next] propagates is
    [ErrTimeout]. *)
Lemma C5_factory_error_can_be_ErrTimeout :
  let w := fresh timeout_pool in
  New (Options.mk (Some timeout_factory) 1 (100 * 1000000)) = Ok timeout_pool /\
  snd (newFn (pool w) (calls w)) = Some ErrTimeout /\
  Next w = Done (None, Some ErrTimeout) (tick w) /\
  clock (tick w) = clock w /\
  ~ (forall E : error,
       snd (newFn (pool w) (calls w)) = Some E ->
       Next w = Done (None, Some E) (tick w) ->
       E <> ErrTimeout).
Proof.
  intros w. repeat split.
  intros H. exact (H ErrTimeout eq_refl eq_refl eq_refl).
Qed.

(** [Next_error_origin] with the clock: which of the two failures happened
    can be read off the ghost state. *)
Lemma Next_error_clock (w w' : World) (r : option ptr) (E : error) :
  Next w = Done (r, Some E) w' ->
  (calls w' = S (calls w) /\ clock w' = clock w) \/
  (calls w' = calls w /\ clock w' = clock w + timeout (pool w)).
Proof.
  rewrite Next_eq.
  destruct (Chan.len (items (pool w)) <? 1) eqn:Hlen.
  - rewrite addNew_eq.
    destruct (curSize (pool w) >=? maxSize (pool w)).
    + destruct (Chan.recv (items (pool w))); intros H; inversion H; subst.
      right. split; reflexivity.
    + destruct (snd (newFn (pool w) (calls w))) as [e|] eqn:Hnew.
      * intros H; inversion H; subst. left. split; reflexivity.
      * destruct (Chan.send _ _) as [c| |] eqn:Hsend; try discriminate. cbn.
        pose proof (send_recv _ _ _ Hsend) as Hrecv.
        destruct (Chan.recv c); [|congruence]. intros H; inversion H.
  - destruct (Chan.recv (items (pool w))); intros H; inversion H; subst.
    right. split; reflexivity.
Qed.

(** C5, amended.  [ErrTimeout] is one fixed value, told apart by identity and
    not by its text.  An error returned by [Next] has exactly one of two
    origins: the factory was invoked and failed, and its error is returned
    verbatim without any wait on the timer; or the timer fired after
    [timeout], the factory did not fail, and the error is [ErrTimeout].  So
    for a factory that never returns [ErrTimeout] itself, a propagated
    factory error is never [ErrTimeout] and a timeout failure is never a
    factory error. *)
Theorem C5_timeout_error_distinguished
    (w w' : World) (r : option ptr) (E : error) :
  (forall n : nat, snd (newFn (pool w) n) <> Some ErrTimeout) ->
  Next w = Done (r, Some E) w' ->
  mkError 1 (err_text ErrTimeout) <> ErrTimeout /\
  ((calls w' = S (calls w) /\ clock w' = clock w /\
    snd (newFn (pool w) (calls w)) = Some E /\ E <> ErrTimeout) \/
   (calls w' = calls w /\ clock w' = clock w + timeout (pool w) /\
    E = ErrTimeout /\ snd (newFn (pool w) (calls w)) <> Some E)).
Proof.
  intros Hfactory Hnext. split; [discriminate|].
  destruct (Next_error_origin w w' r E Hnext) as [_ [[Hc Hf]|[Hc ->]]];
    destruct (Next_error_clock w w' r _ Hnext) as [[Hc' Hk]|[Hc' Hk]];
    try lia.
  - left. repeat split; try assumption.
    intros ->. exact (Hfactory _ Hf).
  - right. repeat split; try assumption. apply Hfactory.
Qed.

Lemma C5_timeout_error_distinguished_witness :
  let w := world_of (Next (fresh failing_pool)) in
  let w0 := world_of (Next (fresh demo_pool)) in
  let w1 := world_of (Next w0) in
  ((forall n : nat, snd (newFn (pool w) n) <> Some ErrTimeout) /\
   Next w = Done (None, Some errBasic) (tick w) /\
   errBasic <> ErrTimeout) /\
  ((forall n : nat, snd (newFn (pool w1) n) <> Some ErrTimeout) /\
   Next w1 = Done (None, Some ErrTimeout) (world_of (Next w1)) /\
   calls (world_of (Next w1)) = calls w1).
Proof.
  intros w w0 w1. split.
  - assert (Hf : forall n : nat, snd (newFn (pool w) n) <> Some ErrTimeout)
      by (intros n; cbn; discriminate).
    split; [exact Hf|]. split; [reflexivity|].
    destruct (C5_timeout_error_distinguished w (tick w) None errBasic Hf eq_refl)
      as [_ [(_ & _ & _ & Hne)|(_ & _ & Heq & _)]]; [exact Hne | discriminate Heq].
  - assert (Hf : forall n : nat, snd (newFn (pool w1) n) <> Some ErrTimeout)
      by (intros n; cbn; discriminate).
    split; [exact Hf|]. split; [reflexivity|].
    destruct (C5_timeout_error_distinguished w1 (world_of (Next w1)) None
                ErrTimeout Hf eq_refl)
      as [_ [(_ & _ & _ & Hne)|(Hc & _)]]; [congruence | exact Hc].
Defined.

(** *** Growth *)

(** With nothing idle and room to grow, [Next] invokes the factory once; when
    the factory succeeds, the new value is handed out at once in a new item,
    and the pool has grown by one. *)
Lemma Next_grows_once (w : World) :
  Inv w ->
  Chan.buf (items (pool w)) = [] ->
  curSize (pool w) < maxSize (pool w) ->
  calls (world_of (Next w)) = S (calls w) /\
  forall v : iface,
    newFn (pool w) (calls w) = (v, None) ->
    exists w',
      Next w = Done (Some (length (heap w)), None) w' /\
      heap w' !! length (heap w) = Some (mkItem v false) /\
      clock w' = clock w /\
      calls w' = S (calls w) /\
      curSize (pool w') = curSize (pool w) + 1 /\
      Chan.buf (items (pool w')) = [].
Proof.
  intros HI Hbuf Hlt. split.
  - destruct (Next_calls w) as [(_ & _ & H)|([Hne|Hge] & _)];
      [exact H | congruence | lia].
  - intros v Hnew.
    destruct (Next_cases w HI)
      as [(x & rest & Hb & _)|[(x & _ & _ & Hx & E)|[(x & e & _ & _ & Hx & _)|(_ & Hge & _)]]];
      try congruence; try lia.
    assert (x = v) by congruence. subst x.
    eexists. split; [exact E|]. cbn. repeat split.
    + apply list_lookup_middle. reflexivity.
    + exact Hbuf.
Qed.


Lemma demo_reachable (ops : list op) : reachable (run ops (fresh demo_pool)).
Proof.
  exists demo_options, demo_pool, ops. split; [|split; reflexivity].
  unfold is_int, int_min, int_max. cbn. lia.
Defined.




(** *** Reuse *)

Lemma cycle_eq (w : World) :
  cycle w =
    match Next w with
    | Done (Some i, _) w1 =>
        match heap w1 !! i with
        | Some it =>
            match Restore i w1 with
            | Done _ w2 => Done (Some (value it)) w2
            | Panic msg w2 => Panic msg w2
            | Blocked w2 => Blocked w2
            end
        | None => Panic "invalid memory address or nil pointer dereference" w1
        end
    | Done (None, _) w1 => Done None w1
    | Panic msg w1 => Panic msg w1
    | Blocked w1 => Blocked w1
    end.
Proof.
  unfold cycle, bind at 1.
  destruct (Next w) as [[[i|] e] w1|msg w1|w1]; try reflexivity.
  cbn [fst]. unfold Value, deref, ret, bind.
  destruct (heap w1 !! i) as [it|]; [|reflexivity].
  destruct (Restore i w1); reflexivity.
Qed.

(** A cycle in a full pool: no growth, and the value comes from the channel. *)
Lemma cycle_full (w : World) :
  Inv w -> curSize (pool w) = maxSize (pool w) ->
  exists r w',
    cycle w = Done r w' /\ Inv w' /\
    curSize (pool w') = maxSize (pool w') /\
    calls w' = calls w /\
    newFn (pool w') = newFn (pool w) /\
    forall v, r = Some v -> constructed w v.
Proof.
  intros HI Hfull. pose proof (Inv_int_curSize w HI) as Hrange.
  pose proof HI as [Hopen Hcap Hmax Hcount Hbound Hidle Hheld].
  pose proof (Next_Inv w HI) as [HI1 _].
  rewrite cycle_eq.
  destruct (Next_cases w HI)
    as [(v & rest & Hbuf & E)|[(v & _ & Hlt & _)|[(v & e & _ & Hlt & _)|(_ & _ & E)]]];
    try lia.
  - rewrite E in *. cbn in HI1. cbn [heap].
    rewrite list_lookup_middle by reflexivity.
    set (w1 := mkWorld _ _ _ _ _) in *.
    assert (Hi : heap w1 !! length (heap w) = Some (mkItem v false))
      by (apply list_lookup_middle; reflexivity).
    pose proof (Restore_Inv w1 (length (heap w)) HI1) as [HI2 _].
    unfold Chan.len in Hcount. rewrite Hbuf in Hcount. cbn [length] in Hcount.
    pose proof (active_nonneg (heap w)) as Hact.
    assert (Hroom : Chan.len (items (pool w1)) < Chan.cap (items (pool w1))).
    { unfold w1, Chan.len. cbn. lia. }
    rewrite (Restore_active w1 _ _ Hi eq_refl eq_refl Hroom) in *.
    cbn in HI2. eexists _, _. split; [reflexivity|]. split; [exact HI2|].
    cbn. repeat split; try assumption.
    intros x Hx. injection Hx as <-. apply Hidle. rewrite Hbuf. left.
  - rewrite E in *. cbn in HI1. eexists _, _. split; [reflexivity|].
    split; [exact HI1|]. cbn. repeat split; try assumption. discriminate.
Qed.

Lemma cycles_full (n : nat) (w : World) :
  Inv w -> curSize (pool w) = maxSize (pool w) ->
  exists vs w',
    cycles n w = Done vs w' /\
    calls w' = calls w /\
    curSize (pool w') = maxSize (pool w') /\
    forall v, Some v ∈ vs -> constructed w v.
Proof.
  revert w. induction n as [|n IH]; intros w HI Hfull; cbn [cycles].
  - exists [], w. repeat split; try assumption. intros v Hv. inversion Hv.
  - destruct (cycle_full w HI Hfull) as (r & w1 & E & HI1 & Hfull1 & Hc1 & Hf1 & Hr).
    destruct (IH w1 HI1 Hfull1) as (vs & w2 & E2 & Hc2 & Hfull2 & Hvs).
    exists (r :: vs), w2. unfold bind. rewrite E, E2. unfold ret.
    split; [reflexivity|]. split; [congruence|]. split; [exact Hfull2|].
    intros v Hv. apply elem_of_cons in Hv as [Hv|Hv].
    + apply Hr. congruence.
    + destruct (Hvs v Hv) as (k & Hk & Hkv). exists k. split; [lia|congruence].
Qed.

(** C7.  In a reachable world where [curSize] has reached [maxSize], any
    number of acquire-then-restore cycles runs to completion without invoking
    the factory, and every value a cycle obtains was returned by an earlier
    invocation of the factory. *)
Theorem C7_full_pool_reuses_values (w : World) (n : nat) :
  reachable w ->
  curSize (pool w) = maxSize (pool w) ->
  exists vs w',
    cycles n w = Done vs w' /\
    calls w' = calls w /\
    curSize (pool w') = maxSize (pool w') /\
    forall v, Some v ∈ vs -> constructed w v.
Proof.
  intros Hr. exact (cycles_full n w (reachable_Inv w Hr)).
Qed.

Lemma C7_full_pool_reuses_values_witness :
  let w := run [OpNext; OpNext; OpRestore 0%nat; OpRestore 1%nat]
               (fresh demo_pool) in
  reachable w /\
  curSize (pool w) = maxSize (pool w) /\
  fst (match cycles 3 w with Done vs _ => (vs, true) | _ => ([], false) end) =
    [Some (Closer 0 None); Some (Closer 1 None); Some (Closer 0 None)] /\
  exists vs w',
    cycles 3 w = Done vs w' /\
    calls w' = calls w /\
    curSize (pool w') = maxSize (pool w') /\
    forall v, Some v ∈ vs -> constructed w v.
Proof.
  intros w. split; [exact (demo_reachable _)|]. split; [reflexivity|].
  split; [reflexivity|].
  exact (C7_full_pool_reuses_values w 3 (demo_reachable _) eq_refl).
Defined.

(** *** Construction *)

(** C9.  [New] with a nil factory panics at once and builds no pool.  With a
    factory it always builds one: a [Size] left at its zero value becomes 1, a
    [Timeout] left at its zero value becomes 30 seconds, and positive values
    are kept as they are.  [Size] and [Timeout] of the pool return those
    values, and no program of [Next], [Restore] and [Remove], nor [Close],
    changes what they return. *)
Theorem C9_New_defaults_and_accessors
    (f : nat -> iface * option error) (size tmo : Z) :
  New (Options.mk None size tmo) = Abort "pool: new func must not be nil" /\
  exists p,
    New (Options.mk (Some f) size tmo) = Ok p /\
    (size = 0 -> Size p = 1) /\
    (tmo = 0 -> Timeout p = 30 * Second) /\
    (0 < size -> Size p = size) /\
    (0 < tmo -> Timeout p = tmo) /\
    (forall ops : list op,
       Size (pool (run ops (fresh p))) = Size p /\
       Timeout (pool (run ops (fresh p))) = Timeout p) /\
    (forall w : World,
       Size (pool (world_of (Close w))) = Size (pool w) /\
       Timeout (pool (world_of (Close w))) = Timeout (pool w)).
Proof.
  split; [reflexivity|].
  eexists. split; [reflexivity|]. unfold Size, Timeout. cbn.
  repeat split.
  - intros ->. reflexivity.
  - intros ->. reflexivity.
  - intros H. destruct (Z.leb_spec size 0); [lia|reflexivity].
  - intros H. destruct (Z.leb_spec tmo 0); [lia|reflexivity].
  - destruct (run_config ops (fresh (mkPool (Chan.make (if size <=? 0 then 1 else size)) f
        (if size <=? 0 then 1 else size) 0
        (if tmo <=? 0 then 30 * Second else tmo)))) as (H & _ & _). exact H.
  - destruct (run_config ops (fresh (mkPool (Chan.make (if size <=? 0 then 1 else size)) f
        (if size <=? 0 then 1 else size) 0
        (if tmo <=? 0 then 30 * Second else tmo)))) as (_ & H & _). exact H.
  - destruct (Close_config w) as (H & _ & _). exact H.
  - destruct (Close_config w) as (_ & H & _). exact H.
Qed.

(** C10.  [New] replaces every non-positive [Size] by 1 and every
    non-positive [Timeout] by 30 seconds, negative ones included; so every
    pool that [New] builds has a strictly positive capacity and timeout, and
    a channel of that capacity. *)
Theorem C10_New_coerces_non_positive
    (f : nat -> iface * option error) (size tmo : Z) :
  exists p,
    New (Options.mk (Some f) size tmo) = Ok p /\
    (size <= 0 -> Size p = 1) /\
    (tmo <= 0 -> Timeout p = 30 * Second) /\
    0 < Size p /\
    0 < Timeout p /\
    Chan.cap (items p) = Size p.
Proof.
  eexists. split; [reflexivity|]. unfold Size, Timeout, Second. cbn.
  destruct (Z.leb_spec size 0), (Z.leb_spec tmo 0); repeat split; lia.
Qed.

Lemma C9_New_defaults_and_accessors_witness :
  New (Options.mk None 0 0) = Abort "pool: new func must not be nil" /\
  (exists p,
     New (Options.mk (Some factory) 0 (100 * 1000000)) = Ok p /\
     Size p = 1 /\ Timeout p = 100000000 /\
     Size (pool (run demo_program (fresh p))) = 1) /\
  (exists p,
     New (Options.mk (Some factory) 100 0) = Ok p /\
     Size p = 100 /\ Timeout p = 30000000000 /\
     Timeout (pool (world_of (Close (fresh p)))) = 30000000000).
Proof.
  split; [exact (proj1 (C9_New_defaults_and_accessors factory 0 0))|]. split.
  - destruct (C9_New_defaults_and_accessors factory 0 (100 * 1000000))
      as (_ & p & Hnew & Hsize & _ & _ & Htmo & Hrun & _).
    exists p. split; [exact Hnew|].
    rewrite (proj1 (Hrun demo_program)), (Hsize eq_refl), (Htmo eq_refl).
    repeat split.
  - destruct (C9_New_defaults_and_accessors factory 100 0)
      as (_ & p & Hnew & _ & Htmo & Hsize & _ & _ & Hclose).
    exists p. split; [exact Hnew|].
    rewrite (proj2 (Hclose (fresh p))). cbn [pool fresh].
    rewrite (Hsize eq_refl), (Htmo eq_refl). repeat split.
Defined.

Lemma C10_New_coerces_non_positive_witness :
  exists p,
    New (Options.mk (Some factory) (-5) (-1)) = Ok p /\
    Size p = 1 /\ Timeout p = 30000000000.
Proof.
  destruct (C10_New_coerces_non_positive factory (-5) (-1))
    as (p & Hnew & Hsize & Htmo & _).
  exists p. split; [exact Hnew|]. split; [apply Hsize | apply Htmo]; lia.
Defined.


(** * Further properties of the package *)

(** ** [Value] *)

Lemma Value_eq (w : World) (i : ptr) :
  Value i w =
    match heap w !! i with
    | Some it => Done (value it) w
    | None => Panic "invalid memory address or nil pointer dereference" w
    end.
Proof.
  unfold Value, bind, deref, ret. destruct (heap w !! i); reflexivity.
Qed.

(** The value of an item is never written: an action changes at most its
    [closed] flag, and only from false to true. *)
Lemma exec_keeps_value (w : World) (o : op) (i : ptr) (it : Item) :
  Inv w -> heap w !! i = Some it ->
  exists it',
    heap (world_of (exec o w)) !! i = Some it' /\ value it' = value it.
Proof.
  intros HI Hi.
  destruct (touches i o) eqn:Ht.
  2: { exists it. split; [|reflexivity].
       exact (exec_keeps_item w o i it HI Hi (or_introl Ht)). }
  destruct (closed it) eqn:Hc.
  { exists it. split; [|reflexivity].
    exact (exec_keeps_item w o i it HI Hi (or_intror Hc)). }
  destruct o as [|j|j| |]; cbn in Ht; try discriminate;
    apply Nat.eqb_eq in Ht; subst j; unfold exec.
  - destruct (dispose_first w ByRestore i it HI Hi Hc) as (w' & E & _ & Hi').
    cbn [dispose] in E. rewrite E. eexists. split; [exact Hi'|reflexivity].
  - destruct (dispose_first w ByRemove i it HI Hi Hc) as (w' & E & _ & Hi').
    cbn [dispose] in E. rewrite E. eexists. split; [exact Hi'|reflexivity].
Qed.

Lemma run_keeps_value (ops : list op) (w : World) (i : ptr) (it : Item) :
  Inv w -> heap w !! i = Some it ->
  exists it', heap (run ops w) !! i = Some it' /\ value it' = value it.
Proof.
  revert w it. induction ops as [|o ops IH]; intros w it HI Hi; cbn [run].
  - exists it. split; [exact Hi | reflexivity].
  - destruct (exec_keeps_value w o i it HI Hi) as (it1 & Hi1 & Hv1).
    destruct (exec_Inv o w HI) as [HI' Hnb].
    destruct (exec o w) as [a w'|msg w'|w']; cbn in Hi1, HI'.
    + destruct (IH w' it1 HI' Hi1) as (it2 & Hi2 & Hv2).
      exists it2. split; [exact Hi2 | congruence].
    + destruct (IH w' it1 HI' Hi1) as (it2 & Hi2 & Hv2).
      exists it2. split; [exact Hi2 | congruence].
    + exists it1. split; [exact Hi1 | exact Hv1].
Qed.

(** X1.  [Value] is a read-only accessor that keeps answering: for an item
    returned by a successful [Next], whatever actions follow, its own
    [Restore] or [Remove] included, [Value] returns the value the item was
    created with and leaves the world as it is. *)
Theorem X1_Value_is_stable (w w1 : World) (i : ptr) (ops : list op) :
  reachable w ->
  Next w = Done (Some i, None) w1 ->
  exists v,
    heap w1 !! i = Some (mkItem v false) /\
    Value i (run ops w1) = Done v (run ops w1).
Proof.
  intros Hr Hnext. pose proof (reachable_Inv w Hr) as HI.
  destruct (Next_item w w1 i None HI Hnext) as (_ & -> & v & Hheap).
  assert (HI1 : Inv w1).
  { pose proof (Next_Inv w HI) as [H _]. rewrite Hnext in H. exact H. }
  assert (Hi1 : heap w1 !! length (heap w) = Some (mkItem v false)).
  { rewrite Hheap. apply list_lookup_middle. reflexivity. }
  exists v. split; [exact Hi1|].
  destruct (run_keeps_value ops w1 _ _ HI1 Hi1) as (it' & Hi' & Hv).
  rewrite Value_eq, Hi'. cbn in Hv. rewrite Hv. reflexivity.
Qed.

Lemma X1_Value_is_stable_witness :
  let w := fresh demo_pool in
  let w1 := world_of (Next w) in
  let ops := [OpNext; OpRestore 0%nat; OpRemove 0%nat; OpNext] in
  reachable w /\
  Next w = Done (Some 0%nat, None) w1 /\
  Value 0%nat (run ops w1) = Done (Closer 0 None) (run ops w1) /\
  exists v,
    heap w1 !! 0%nat = Some (mkItem v false) /\
    Value 0%nat (run ops w1) = Done v (run ops w1).
Proof.
  intros w w1 ops. split; [exact (demo_reachable [])|].
  split; [reflexivity|]. split; [reflexivity|].
  exact (X1_Value_is_stable w w1 0%nat ops (demo_reachable []) eq_refl).
Defined.

(** ** After [Close] *)

Lemma Close_closed (w : World) :
  Chan.closed (items (pool w)) = true ->
  Close w = Panic "close of closed channel" w.
Proof.
  intros Hc. unfold Close, bind, close_items, Chan.close. rewrite Hc.
  reflexivity.
Qed.

(** What the loop of [Close] does to any buffer: it walks a prefix of it and
    leaves the rest; the [Close] method ran on the values of the prefix that
    have one; when it stops on an error the prefix ends with the value that
    failed, and otherwise nothing is left. *)
Lemma drain_split (buf log : list iface) :
  exists done : list iface,
    buf = done ++ snd (fst (drain buf log)) /\
    snd (drain buf log) = log ++ closers done /\
    match fst (fst (drain buf log)) with
    | Some e => exists pre v, done = pre ++ [v] /\ closer v = Some (Some e) /\
                              all_close_ok pre = true
    | None => snd (fst (drain buf log)) = [] /\ all_close_ok done = true
    end.
Proof.
  revert log. induction buf as [|x buf IH]; intros log; cbn [drain].
  - exists []. cbn. rewrite app_nil_r. repeat split.
  - destruct (closer x) as [[e|]|] eqn:Hx.
    + exists [x]. cbn. rewrite Hx. repeat split.
      exists [], x. repeat split. exact Hx.
    + destruct (IH (log ++ [x])) as (done & Hbuf & Hlog & Herr).
      exists (x :: done). cbn [app closers]. rewrite Hx.
      split; [congruence|]. split; [rewrite Hlog, <- app_assoc; reflexivity|].
      destruct (fst (fst (drain buf (log ++ [x])))) as [e|].
      * destruct Herr as (pre & v & -> & Hv & Hok).
        exists (x :: pre), v. repeat split; [exact Hv|]. cbn. rewrite Hx. exact Hok.
      * destruct Herr as [Hrest Hok]. split; [exact Hrest|]. cbn. rewrite Hx. exact Hok.
    + destruct (IH log) as (done & Hbuf & Hlog & Herr).
      exists (x :: done). cbn [app closers]. rewrite Hx.
      split; [congruence|]. split; [exact Hlog|].
      destruct (fst (fst (drain buf log))) as [e|].
      * destruct Herr as (pre & v & -> & Hv & Hok).
        exists (x :: pre), v. repeat split; [exact Hv|]. cbn. rewrite Hx. exact Hok.
      * destruct Herr as [Hrest Hok]. split; [exact Hrest|]. cbn. rewrite Hx. exact Hok.
Qed.

(** A [Close] that returns has closed an open channel. *)
Lemma Close_Done (w w' : World) (e : option error) :
  Close w = Done e w' ->
  Chan.closed (items (pool w)) = false /\
  Chan.closed (items (pool w')) = true /\
  heap w' = heap w /\ calls w' = calls w /\ clock w' = clock w /\
  curSize (pool w') = curSize (pool w) /\
  maxSize (pool w') = maxSize (pool w) /\
  newFn (pool w') = newFn (pool w) /\
  Chan.cap (items (pool w')) = Chan.cap (items (pool w)) /\
  drain (Chan.buf (items (pool w))) (disposed w) =
    (e, Chan.buf (items (pool w')), disposed w').
Proof.
  intros HC. destruct (Chan.closed (items (pool w))) eqn:Hc.
  { rewrite (Close_closed w Hc) in HC. discriminate. }
  rewrite (Close_eq w Hc) in HC. cbn zeta in HC.
  destruct (drain (Chan.buf (items (pool w))) (disposed w)) as [[err rest] log].
  inversion HC; subst. cbn. repeat split.
Qed.

(** X2.  [Close] can be called once: a second call, after one that returned
    (with or without an error), panics with "close of closed channel" and
    changes nothing. *)
Theorem X2_second_Close_panics (w w' : World) (e : option error) :
  Close w = Done e w' ->
  Close w' = Panic "close of closed channel" w'.
Proof.
  intros HC. destruct (Close_Done w w' e HC) as (_ & Hc & _).
  exact (Close_closed w' Hc).
Qed.

Lemma X2_second_Close_panics_witness :
  let w := idle_world [Plain 7; Closer 1 None] in
  let w' := world_of (Close w) in
  Close w = Done None w' /\
  Close w' = Panic "close of closed channel" w'.
Proof.
  intros w w'. split; [reflexivity|].
  exact (X2_second_Close_panics w w' None eq_refl).
Defined.

(** X3.  After [Close] has returned, the first [Restore] of an item still out
    panics with "send on closed channel"; the panic comes before the item is
    marked closed and changes nothing, so the item stays open and [Remove] on
    it still succeeds. *)
Theorem X3_Restore_after_Close_panics
    (w w' : World) (e : option error) (i : ptr) (it : Item) :
  Close w = Done e w' ->
  heap w !! i = Some it ->
  closed it = false ->
  Restore i w' = Panic "send on closed channel" w' /\
  heap w' !! i = Some it /\
  exists w2,
    Remove i w' = Done tt w2 /\
    heap w2 !! i = Some (mkItem (value it) true).
Proof.
  intros HC Hi Hc.
  destruct (Close_Done w w' e HC) as (_ & Hclosed & Hheap & _).
  rewrite <- Hheap in Hi. split; [|split; [exact Hi|]].
  - unfold Restore, bind, deref. rewrite Hi, Hc.
    unfold restore, send_items, Chan.send. rewrite Hclosed. reflexivity.
  - eexists. split; [exact (Remove_active w' i it Hi Hc)|]. cbn.
    apply list_lookup_insert_eq. exact (lookup_lt_Some _ _ _ Hi).
Qed.

Lemma X3_Restore_after_Close_panics_witness :
  let w := world_of (Next (fresh single_pool)) in
  let w' := world_of (Close w) in
  let it := mkItem (Closer 0 None) false in
  Close w = Done None w' /\
  heap w !! 0%nat = Some it /\
  closed it = false /\
  Restore 0%nat w' = Panic "send on closed channel" w' /\
  heap w' !! 0%nat = Some it /\
  exists w2,
    Remove 0%nat w' = Done tt w2 /\
    heap w2 !! 0%nat = Some (mkItem (value it) true).
Proof.
  intros w w' it. split; [reflexivity|]. split; [reflexivity|].
  split; [reflexivity|].
  exact (X3_Restore_after_Close_panics w w' None 0%nat it eq_refl eq_refl eq_refl).
Defined.

(** X4.  [Next] on a pool whose [Close] returned nil finds the channel closed
    and empty.  At full capacity it does not wait: the receive on the closed
    channel yields nil at once, and [Next] returns an item holding nil with no
    error and no call of the factory.  Below capacity it invokes the factory:
    a failure is returned as usual, and a success panics with
    "send on closed channel" after the factory has run, with [curSize]
    unchanged. *)
Theorem X4_Next_after_Close (w w' : World) :
  Close w = Done None w' ->
  (maxSize (pool w') <= curSize (pool w') ->
   Next w' =
     Done (Some (length (heap w')), None)
          (mkWorld (pool w') (heap w' ++ [mkItem nil false]) (calls w')
                   (clock w') (disposed w'))) /\
  (curSize (pool w') < maxSize (pool w') ->
   forall v : iface,
     (newFn (pool w') (calls w') = (v, None) ->
      Next w' = Panic "send on closed channel" (tick w')) /\
     (forall E : error,
        newFn (pool w') (calls w') = (v, Some E) ->
        Next w' = Done (None, Some E) (tick w'))).
Proof.
  intros HC.
  destruct (Close_Done w w' None HC) as (_ & Hclosed & _ & _ & _ & _ & _ & _ & _ & Hdrain).
  assert (Hbuf : Chan.buf (items (pool w')) = []).
  { destruct (drain_split (Chan.buf (items (pool w))) (disposed w))
      as (done & _ & _ & Herr).
    rewrite Hdrain in Herr. cbn in Herr. exact (proj1 Herr). }
  assert (Hlen : (Chan.len (items (pool w')) <? 1) = true)
    by (apply len_lt_1; exact Hbuf).
  split.
  - intros Hge. rewrite Next_eq, Hlen, addNew_eq, Z.geb_leb.
    destruct (Z.leb_spec (maxSize (pool w')) (curSize (pool w'))); [|lia].
    unfold Chan.recv. rewrite Hbuf, Hclosed.
    destruct w' as [[[b c cl] f mx cs t] h n k d]. cbn in *. subst. reflexivity.
  - intros Hlt v. split.
    + intros Hnew. rewrite Next_eq, Hlen, addNew_eq, Z.geb_leb.
      destruct (Z.leb_spec (maxSize (pool w')) (curSize (pool w'))); [lia|].
      rewrite Hnew. cbn [fst snd]. unfold Chan.send. rewrite Hclosed. reflexivity.
    + intros E Hnew. exact (Next_grow_fails w' v E Hbuf Hlt Hnew).
Qed.

Lemma X4_Next_after_Close_witness :
  let w := run [OpNext] (fresh single_pool) in
  let w' := world_of (Close w) in
  let u := run [OpNext; OpRemove 0%nat] (fresh single_pool) in
  let u' := world_of (Close u) in
  (Close w = Done None w' /\
   maxSize (pool w') <= curSize (pool w') /\
   received (Next w') = (Some nil, None)) /\
  (Close u = Done None u' /\
   curSize (pool u') < maxSize (pool u') /\
   newFn (pool u') (calls u') = (Closer 1 None, None) /\
   Next u' = Panic "send on closed channel" (tick u')).
Proof.
  intros w w' u u'. split.
  - assert (Hge : maxSize (pool w') <= curSize (pool w')) by (vm_compute; discriminate).
    split; [reflexivity|]. split; [exact Hge|].
    destruct (X4_Next_after_Close w w' eq_refl) as [Hfull _].
    rewrite (Hfull Hge). reflexivity.
  - assert (Hlt : curSize (pool u') < maxSize (pool u')) by reflexivity.
    split; [reflexivity|]. split; [exact Hlt|]. split; [reflexivity|].
    destruct (X4_Next_after_Close u u' eq_refl) as [_ Hroom].
    exact (proj1 (Hroom Hlt (Closer 1 None)) eq_refl).
Defined.

(** X5.  [Close] loses track of nothing and touches nothing else.  Whenever
    it returns, the channel it found is split into the values it took out,
    in order, followed by the values it left in; its [Close] method ran
    exactly on the taken values that have one, in order; on an error the last
    value taken is the one that failed, and without an error nothing is left.
    The items handed out, [curSize] and the number of factory calls are as
    before, so [Close] neither disposes of a value that is checked out nor
    gives its slot back. *)
Theorem X5_Close_accounts_for_every_idle_value
    (w w' : World) (e : option error) :
  Close w = Done e w' ->
  heap w' = heap w /\
  curSize (pool w') = curSize (pool w) /\
  calls w' = calls w /\
  exists taken : list iface,
    Chan.buf (items (pool w)) = taken ++ Chan.buf (items (pool w')) /\
    disposed w' = disposed w ++ closers taken /\
    match e with
    | Some err =>
        exists pre v,
          taken = pre ++ [v] /\ closer v = Some (Some err) /\
          all_close_ok pre = true
    | None => Chan.buf (items (pool w')) = [] /\ all_close_ok taken = true
    end.
Proof.
  intros HC.
  destruct (Close_Done w w' e HC)
    as (_ & _ & Hheap & Hcalls & _ & Hcur & _ & _ & _ & Hdrain).
  split; [exact Hheap|]. split; [exact Hcur|]. split; [exact Hcalls|].
  destruct (drain_split (Chan.buf (items (pool w))) (disposed w))
    as (done & Hbuf & Hlog & Herr).
  rewrite Hdrain in Hbuf, Hlog, Herr. cbn in Hbuf, Hlog, Herr.
  exists done. split; [exact Hbuf|]. split; [exact Hlog|]. exact Herr.
Qed.

Lemma X5_Close_accounts_for_every_idle_value_witness :
  let w := idle_world [Plain 7; Closer 1 None; Closer 2 (Some errBasic);
                       Closer 3 None] in
  let w' := world_of (Close w) in
  Close w = Done (Some errBasic) w' /\
  Chan.buf (items (pool w')) = [Closer 3 None] /\
  exists taken : list iface,
    Chan.buf (items (pool w)) = taken ++ Chan.buf (items (pool w')) /\
    disposed w' = disposed w ++ closers taken /\
    exists pre v,
      taken = pre ++ [v] /\ closer v = Some (Some errBasic) /\
      all_close_ok pre = true.
Proof.
  intros w w'. split; [reflexivity|]. split; [reflexivity|].
  exact (proj2 (proj2 (proj2
    (X5_Close_accounts_for_every_idle_value w w' (Some errBasic) eq_refl)))).
Defined.

(** ** A pool in use *)

Lemma reachable_timeout_pos (w : World) : reachable w -> 0 < timeout (pool w).
Proof.
  intros (o & p & ops & _ & Hnew & ->).
  destruct (run_config ops (fresh p)) as (_ & -> & _). cbn.
  unfold New in Hnew. destruct (Options.New o); [|discriminate].
  injection Hnew as <-. cbn. unfold Second.
  destruct (Z.leb_spec (Options.Timeout o) 0); lia.
Qed.

(** X6.  In a pool in use nothing blocks for ever and [Next] never panics:
    every action returns or panics, the sends of [Restore] and [addNew]
    always find room in the channel, and [Next] returns either an item and no
    error, or no item and an error. *)
Theorem X6_no_action_blocks (w : World) :
  reachable w ->
  (forall (o : op) (w' : World), exec o w <> Blocked w') /\
  exists (r : option ptr * option error) (w' : World),
    Next w = Done r w' /\
    ((exists i, r = (Some i, None)) \/ (exists e, r = (None, Some e))).
Proof.
  intros Hr. pose proof (reachable_Inv w Hr) as HI. split.
  - intros o. exact (proj2 (exec_Inv o w HI)).
  - destruct (Next_cases w HI)
      as [(v & rest & _ & E)|[(v & _ & _ & _ & E)|[(v & e & _ & _ & _ & E)|(_ & _ & E)]]];
      rewrite E; eexists _, _; (split; [reflexivity|]); eauto.
Qed.

Lemma X6_no_action_blocks_witness :
  let w := run demo_program (fresh demo_pool) in
  reachable w /\
  exec (OpRestore 2%nat) w = Done tt (world_of (exec (OpRestore 2%nat) w)) /\
  (forall (o : op) (w' : World), exec o w <> Blocked w') /\
  exists (r : option ptr * option error) (w' : World),
    Next w = Done r w' /\
    ((exists i, r = (Some i, None)) \/ (exists e, r = (None, Some e))).
Proof.
  intros w. split; [exact (demo_reachable demo_program)|].
  split; [reflexivity|].
  exact (X6_no_action_blocks w (demo_reachable demo_program)).
Defined.

(** X7.  The accounting of a pool in use is exact: [curSize] is the number of
    idle values plus the number of items handed out and not yet restored or
    removed; the channel is open and has room for [maxSize] values. *)
Theorem X7_curSize_counts_idle_and_held (w : World) :
  reachable w ->
  curSize (pool w) = Chan.len (items (pool w)) + active (heap w) /\
  Chan.cap (items (pool w)) = maxSize (pool w) /\
  Chan.closed (items (pool w)) = false.
Proof.
  intros Hr. destruct (reachable_Inv w Hr) as [Hopen Hcap _ Hcount _ _ _].
  split; [exact Hcount|]. split; [exact Hcap | exact Hopen].
Qed.

Lemma X7_curSize_counts_idle_and_held_witness :
  let w := run demo_program (fresh demo_pool) in
  reachable w /\
  (curSize (pool w), Chan.len (items (pool w)), active (heap w)) = (2, 1, 1) /\
  curSize (pool w) = Chan.len (items (pool w)) + active (heap w) /\
  Chan.cap (items (pool w)) = maxSize (pool w) /\
  Chan.closed (items (pool w)) = false.
Proof.
  intros w. split; [exact (demo_reachable demo_program)|].
  split; [reflexivity|].
  exact (X7_curSize_counts_idle_and_held w (demo_reachable demo_program)).
Defined.

(** X8.  [Restore] hands the value back at the end of the queue and changes
    no counter; values come out of the channel in the order they went in.  In
    particular, when nothing else is idle, the next [Next] returns the
    restored value in a new open item, without calling the factory and
    without waiting. *)
Theorem X8_Restore_then_Next_round_trip (w : World) (i : ptr) (it : Item) :
  reachable w ->
  heap w !! i = Some it ->
  closed it = false ->
  exists w1,
    Restore i w = Done tt w1 /\
    Chan.buf (items (pool w1)) = Chan.buf (items (pool w)) ++ [value it] /\
    curSize (pool w1) = curSize (pool w) /\
    calls w1 = calls w /\
    forall (x : iface) (rest : list iface),
      Chan.buf (items (pool w1)) = x :: rest ->
      exists w2,
        Next w1 = Done (Some (length (heap w)), None) w2 /\
        heap w2 !! length (heap w) = Some (mkItem x false) /\
        Chan.buf (items (pool w2)) = rest /\
        calls w2 = calls w /\
        clock w2 = clock w /\
        curSize (pool w2) = curSize (pool w).
Proof.
  intros Hr Hi Hc. pose proof (reachable_Inv w Hr) as HI.
  pose proof HI as [Hopen Hcap Hmax Hcount Hbound Hidle Hheld].
  pose proof (active_pos _ _ _ Hi Hc) as Hpos.
  eexists. split; [exact (Restore_active w i it Hi Hc Hopen ltac:(lia))|].
  split; [reflexivity|]. split; [reflexivity|]. split; [reflexivity|].
  intros x rest Hbuf.
  eexists. split.
  { rewrite (Next_idle _ x rest) by exact Hbuf. cbn [heap]. rewrite length_insert.
    reflexivity. }
  cbn [heap pool items Chan.buf set_items calls clock curSize].
  repeat split.
  rewrite <- (length_insert (heap w) i (mkItem (value it) true)).
  apply list_lookup_middle. reflexivity.
Qed.

Lemma single_reachable (ops : list op) : reachable (run ops (fresh single_pool)).
Proof.
  exists (Options.mk (Some factory) 1 (100 * millisecond)), single_pool, ops.
  split; [|split; reflexivity]. unfold is_int, int_min, int_max. cbn. lia.
Defined.

Lemma X8_Restore_then_Next_round_trip_witness :
  let w := run [OpNext] (fresh single_pool) in
  let it := mkItem (Closer 0 None) false in
  reachable w /\
  heap w !! 0%nat = Some it /\
  closed it = false /\
  received (Next (world_of (Restore 0%nat w))) = (Some (Closer 0 None), None) /\
  exists w1,
    Restore 0%nat w = Done tt w1 /\
    Chan.buf (items (pool w1)) = Chan.buf (items (pool w)) ++ [value it] /\
    curSize (pool w1) = curSize (pool w) /\
    calls w1 = calls w /\
    forall (x : iface) (rest : list iface),
      Chan.buf (items (pool w1)) = x :: rest ->
      exists w2,
        Next w1 = Done (Some (length (heap w)), None) w2 /\
        heap w2 !! length (heap w) = Some (mkItem x false) /\
        Chan.buf (items (pool w2)) = rest /\
        calls w2 = calls w /\
        clock w2 = clock w /\
        curSize (pool w2) = curSize (pool w).
Proof.
  intros w it.
  assert (Hr : reachable w) by exact (single_reachable [OpNext]).
  split; [exact Hr|]. split; [reflexivity|]. split; [reflexivity|].
  split; [reflexivity|].
  exact (X8_Restore_then_Next_round_trip w 0%nat it Hr eq_refl eq_refl).
Defined.

(** X9.  At full capacity with nothing idle, [Next] gives up after exactly the
    configured timeout, which is positive: it returns [ErrTimeout], and the
    pool, the items and the number of factory calls are as before, so the
    caller may simply try again. *)
Theorem X9_Next_times_out_at_capacity (w : World) :
  reachable w ->
  Chan.buf (items (pool w)) = [] ->
  curSize (pool w) = maxSize (pool w) ->
  0 < Timeout (pool w) /\
  Next w =
    Done (None, Some ErrTimeout)
         (mkWorld (pool w) (heap w) (calls w) (clock w + Timeout (pool w))
                  (disposed w)).
Proof.
  intros Hr Hbuf Hfull. split; [exact (reachable_timeout_pos w Hr)|].
  pose proof (reachable_Inv w Hr) as [Hopen _ _ _ _ _ _].
  exact (Next_full w Hbuf Hopen ltac:(lia)).
Qed.

Lemma X9_Next_times_out_at_capacity_witness :
  let w := run [OpNext; OpNext] (fresh demo_pool) in
  reachable w /\
  Chan.buf (items (pool w)) = [] /\
  curSize (pool w) = maxSize (pool w) /\
  0 < Timeout (pool w) /\
  Next w =
    Done (None, Some ErrTimeout)
         (mkWorld (pool w) (heap w) (calls w) (clock w + Timeout (pool w))
                  (disposed w)).
Proof.
  intros w. split; [exact (demo_reachable [OpNext; OpNext])|].
  split; [reflexivity|]. split; [reflexivity|].
  exact (X9_Next_times_out_at_capacity w (demo_reachable [OpNext; OpNext])
           eq_refl eq_refl).
Defined.

(** X10.  A failed construction costs nothing: when the factory fails and
    succeeds on the caller's next attempt, the second [Next] returns the new
    value, and the pool has grown by exactly one. *)
Theorem X10_Next_recovers_after_factory_error
    (w : World) (x v : iface) (E : error) :
  reachable w ->
  Chan.buf (items (pool w)) = [] ->
  curSize (pool w) < maxSize (pool w) ->
  newFn (pool w) (calls w) = (x, Some E) ->
  newFn (pool w) (S (calls w)) = (v, None) ->
  exists w1 w2,
    Next w = Done (None, Some E) w1 /\
    Next w1 = Done (Some (length (heap w)), None) w2 /\
    heap w2 !! length (heap w) = Some (mkItem v false) /\
    curSize (pool w2) = curSize (pool w) + 1 /\
    calls w2 = S (S (calls w)) /\
    clock w2 = clock w.
Proof.
  intros Hr Hbuf Hlt Hfail Hok. pose proof (reachable_Inv w Hr) as HI.
  exists (tick w). rewrite (Next_grow_fails w x E Hbuf Hlt Hfail).
  assert (HI1 : Inv (tick w)).
  { pose proof (Next_Inv w HI) as [H _].
    rewrite (Next_grow_fails w x E Hbuf Hlt Hfail) in H. exact H. }
  destruct (Next_grows_once (tick w) HI1 Hbuf Hlt) as [_ Hvalue].
  destruct (Hvalue v Hok) as (w2 & E2 & Hh & Hk & Hn & Hs & _).
  exists w2. repeat split; assumption.
Qed.

Lemma X10_Next_recovers_after_factory_error_witness :
  let w := fresh flaky_pool in
  reachable w /\
  Chan.buf (items (pool w)) = [] /\
  curSize (pool w) < maxSize (pool w) /\
  newFn (pool w) (calls w) = (nil, Some errBasic) /\
  newFn (pool w) (S (calls w)) = (Closer 1 None, None) /\
  exists w1 w2,
    Next w = Done (None, Some errBasic) w1 /\
    Next w1 = Done (Some (length (heap w)), None) w2 /\
    heap w2 !! length (heap w) = Some (mkItem (Closer 1 None) false) /\
    curSize (pool w2) = curSize (pool w) + 1 /\
    calls w2 = S (S (calls w)) /\
    clock w2 = clock w.
Proof.
  intros w.
  assert (Hr : reachable w).
  { exists (Options.mk (Some flaky_factory) 1 (100 * millisecond)), flaky_pool, [].
    split; [|split; reflexivity]. unfold is_int, int_min, int_max. cbn. lia. }
  assert (Hlt : curSize (pool w) < maxSize (pool w)) by reflexivity.
  split; [exact Hr|]. split; [reflexivity|]. split; [exact Hlt|].
  split; [reflexivity|]. split; [reflexivity|].
  exact (X10_Next_recovers_after_factory_error w nil (Closer 1 None) errBasic
           Hr eq_refl Hlt eq_refl eq_refl).
Defined.

(** ** Growth up to capacity *)

Lemma run_single (o : op) (w : World) : run [o] w = world_of (exec o w).
Proof. cbn [run]. destruct (exec o w); reflexivity. Qed.

(** X11.  With a factory that does not fail, the first [k <= maxSize] calls
    of [Next] on a new pool, none of them restored, construct one value each:
    the items hold the results of the first [k] factory calls in order,
    [curSize] and the number of factory calls are [k], and nothing is idle. *)
Theorem X11_pool_grows_to_capacity (o : Options.t) (p : Pool) (k : nat) :
  is_int (Options.Size o) ->
  New o = Ok p ->
  never_fails (newFn p) ->
  Z.of_nat k <= maxSize p ->
  let w := run (replicate k OpNext) (fresh p) in
  heap w = first_items (newFn p) k /\
  curSize (pool w) = Z.of_nat k /\
  calls w = k /\
  Chan.buf (items (pool w)) = [].
Proof.
  intros Hint Hnew Hok. induction k as [|k IH]; intros Hk w.
  - unfold w. cbn. unfold New in Hnew. destruct (Options.New o); [|discriminate].
    injection Hnew as <-. repeat split.
  - assert (HI0 : Inv (fresh p)) by exact (New_fresh_Inv o p Hint Hnew).
    unfold w. rewrite replicate_S_end, (run_app _ _ _ HI0), run_single.
    destruct (IH ltac:(lia)) as (Hheap & Hcur & Hcalls & Hbuf).
    set (wk := run (replicate k OpNext) (fresh p)) in *.
    assert (HIk : Inv wk) by exact (run_Inv _ _ HI0).
    destruct (run_config (replicate k OpNext) (fresh p)) as (Hmax & _ & Hf).
    fold wk in Hmax, Hf. cbn in Hmax, Hf.
    assert (Hnewk : newFn (pool wk) (calls wk) = (fst (newFn p k), None)).
    { rewrite Hf, Hcalls. specialize (Hok k).
      destruct (newFn p k) as [v e]. cbn in *. subst e. reflexivity. }
    pose proof HIk as [Hopen Hcap Hmx _ _ _ _].
    unfold exec. rewrite world_of_forget.
    rewrite (Next_grow wk _ Hbuf Hopen ltac:(lia) ltac:(lia) Hnewk).
    rewrite wrap_id by (unfold is_int, int_min, int_max in *; lia).
    cbn [world_of heap pool curSize calls items set_curSize].
    unfold first_items. rewrite seq_S, map_app. cbn [map Nat.add].
    split; [rewrite Hheap; reflexivity|]. split; [lia|].
    split; [congruence | exact Hbuf].
Qed.

Lemma X11_pool_grows_to_capacity_witness :
  let w := run (replicate 2 OpNext) (fresh demo_pool) in
  is_int (Options.Size demo_options) /\
  New demo_options = Ok demo_pool /\
  never_fails (newFn demo_pool) /\
  Z.of_nat 2 <= maxSize demo_pool /\
  heap w = [mkItem (Closer 0 None) false; mkItem (Closer 1 None) false] /\
  curSize (pool w) = 2 /\
  calls w = 2%nat /\
  Chan.buf (items (pool w)) = [].
Proof.
  intros w.
  assert (Hint : is_int (Options.Size demo_options))
    by (unfold is_int, int_min, int_max; cbn; lia).
  assert (Hok : never_fails (newFn demo_pool)) by (intros n; reflexivity).
  assert (Hk : Z.of_nat 2 <= maxSize demo_pool) by (cbn; lia).
  split; [exact Hint|]. split; [reflexivity|]. split; [exact Hok|].
  split; [exact Hk|].
  exact (X11_pool_grows_to_capacity demo_options demo_pool 2 Hint eq_refl Hok Hk).
Defined.

(** ** Exclusive use *)

Lemma held_app (h1 h2 : list Item) : held (h1 ++ h2) = held h1 ++ held h2.
Proof.
  induction h1 as [|it h1 IH]; cbn; [reflexivity|].
  destruct (closed it); rewrite IH; reflexivity.
Qed.

Lemma held_close (h : list Item) (i : nat) (it : Item) :
  h !! i = Some it -> closed it = false ->
  held h ≡ₚ value it :: held (<[i := mkItem (value it) true]> h).
Proof.
  revert i. induction h as [|x h IH]; intros [|i] Hi Hc; cbn in *; try discriminate.
  - injection Hi as ->. rewrite Hc. reflexivity.
  - specialize (IH i Hi Hc). destruct (closed x).
    + exact IH.
    + etransitivity; [apply Permutation_cons; [reflexivity | exact IH]|].
      apply Permutation_swap.
Qed.

Lemma elem_of_held (h : list Item) (x : iface) :
  x ∈ held h ->
  exists i it, h !! i = Some it /\ closed it = false /\ value it = x.
Proof.
  induction h as [|y h IH]; cbn; intros Hx; [inversion Hx|].
  destruct (closed y) eqn:Hc.
  - destruct (IH Hx) as (i & it & Hi & Hci & Hv). exists (S i), it. eauto.
  - apply elem_of_cons in Hx as [->|Hx].
    + exists 0%nat, y. eauto.
    + destruct (IH Hx) as (i & it & Hi & Hci & Hv). exists (S i), it. eauto.
Qed.

(** Every value in circulation came from the factory. *)
Lemma live_constructed (w : World) (x : iface) :
  Inv w -> x ∈ live w -> constructed w x.
Proof.
  intros HI Hx. unfold live in Hx. apply elem_of_app in Hx as [Hx|Hx].
  - exact (inv_idle w HI x Hx).
  - destruct (elem_of_held _ _ Hx) as (i & it & Hi & Hc & <-).
    exact (inv_held w HI i it Hi Hc).
Qed.

(** What one action does to the values in circulation: it moves them around,
    adds the value that the factory has just returned, or drops one. *)
Lemma exec_live (w : World) (o : op) :
  Inv w ->
  let w' := world_of (exec o w) in
  (calls w <= calls w')%nat /\
  (live w' ≡ₚ live w \/
   (exists v, newFn (pool w) (calls w) = (v, None) /\ live w' ≡ₚ v :: live w) \/
   (exists v, live w ≡ₚ v :: live w')).
Proof.
  intros HI. pose proof HI as [Hopen Hcap Hmax Hcount Hbound Hidle Hheld].
  pose proof (Inv_int_curSize w HI) as Hrange. unfold live.
  destruct o as [|i|i| |]; unfold exec; cbn zeta; try rewrite world_of_forget.
  - destruct (Next_cases w HI)
      as [(v & rest & Hb & E)|[(v & Hb & _ & Hnew & E)|[(v & e & _ & _ & _ & E)|(_ & _ & E)]]];
      rewrite E; cbn; (split; [lia|]).
    + left. rewrite Hb, held_app. cbn.
      rewrite app_assoc, <- Permutation_cons_append. reflexivity.
    + right. left. exists v. split; [exact Hnew|]. rewrite Hb, held_app. cbn.
      rewrite <- Permutation_cons_append. reflexivity.
    + left. reflexivity.
    + left. reflexivity.
  - destruct (heap w !! i) as [it|] eqn:Hi.
    2: { rewrite (Restore_nil w i Hi). cbn. split; [lia|]. left. reflexivity. }
    destruct (closed it) eqn:Hc.
    { rewrite (Restore_closed w i it Hi Hc). cbn. split; [lia|]. left. reflexivity. }
    pose proof (active_pos _ _ _ Hi Hc) as Hpos.
    rewrite (Restore_active w i it Hi Hc Hopen ltac:(lia)). cbn. split; [lia|].
    left. rewrite (held_close _ _ _ Hi Hc), <- app_assoc. cbn.
    reflexivity.
  - destruct (heap w !! i) as [it|] eqn:Hi.
    2: { rewrite (Remove_nil w i Hi). cbn. split; [lia|]. left. reflexivity. }
    destruct (closed it) eqn:Hc.
    { rewrite (Remove_closed w i it Hi Hc). cbn. split; [lia|]. left. reflexivity. }
    rewrite (Remove_active w i it Hi Hc). cbn. split; [lia|].
    right. right. exists (value it). rewrite (held_close _ _ _ Hi Hc).
    rewrite Permutation_middle. reflexivity.
  - destruct (addNew_cases w HI)
      as [(_ & E)|[(_ & v & e & _ & E)|(_ & v & Hnew & E)]];
      rewrite E; cbn; (split; [lia|]).
    + left. reflexivity.
    + left. reflexivity.
    + right. left. exists v. split; [exact Hnew|].
      rewrite <- app_assoc. cbn. rewrite Permutation_middle. reflexivity.
  - destruct (Next_select_cases w Hopen) as [(v & rest & Hb & E)|(_ & E)];
      rewrite E; cbn; (split; [lia|]).
    + left. rewrite Hb, held_app. cbn.
      rewrite app_assoc, <- Permutation_cons_append. reflexivity.
    + left. reflexivity.
Qed.

Lemma exec_NoDup (w : World) (o : op) :
  Inv w -> distinct_values (newFn (pool w)) ->
  NoDup (live w) -> NoDup (live (world_of (exec o w))).
Proof.
  intros HI Hdist Hnd.
  destruct (exec_live w o HI) as [_ [Hp|[(v & Hnew & Hp)|(v & Hp)]]].
  - rewrite Hp. exact Hnd.
  - rewrite Hp. apply NoDup_cons. split; [|exact Hnd].
    intros Hin. destruct (live_constructed w v HI Hin) as (k & Hk & Hkv).
    pose proof (Hdist _ _ _ Hkv Hnew). lia.
  - rewrite Hp in Hnd. apply NoDup_cons in Hnd as [_ Hnd]. exact Hnd.
Qed.

Lemma exec_newFn (w : World) (o : op) :
  newFn (pool (world_of (exec o w))) = newFn (pool w).
Proof.
  destruct (run_config [o] w) as (_ & _ & H). rewrite run_single in H. exact H.
Qed.

Lemma run_NoDup (ops : list op) (w : World) :
  Inv w -> distinct_values (newFn (pool w)) ->
  NoDup (live w) -> NoDup (live (run ops w)).
Proof.
  revert w. induction ops as [|o ops IH]; intros w HI Hdist Hnd; cbn [run];
    [exact Hnd|].
  pose proof (exec_NoDup w o HI Hdist Hnd) as Hnd'.
  pose proof (exec_newFn w o) as Hf.
  destruct (exec_Inv o w HI) as [HI' _].
  destruct (exec o w) as [a w'|msg w'|w']; cbn in Hnd', Hf, HI'.
  - apply IH; [exact HI' | rewrite Hf; exact Hdist | exact Hnd'].
  - apply IH; [exact HI' | rewrite Hf; exact Hdist | exact Hnd'].
  - exact Hnd'.
Qed.

Lemma reachable_NoDup (w : World) :
  reachable w -> distinct_values (newFn (pool w)) -> NoDup (live w).
Proof.
  intros (o & p & ops & Hint & Hnew & ->) Hdist.
  destruct (run_config ops (fresh p)) as (_ & _ & Hf). cbn in Hf.
  apply run_NoDup.
  - exact (New_fresh_Inv o p Hint Hnew).
  - cbn. rewrite <- Hf. exact Hdist.
  - assert (Hb : Chan.buf (items p) = []).
    { unfold New in Hnew. destruct (Options.New o); [|discriminate].
      injection Hnew as <-. reflexivity. }
    unfold live. cbn. rewrite Hb. constructor.
Qed.

(** X12.  A value is in one place at a time.  When the factory never returns
    the same value twice, the values idle in the channel together with the
    values held by open items never contain a value twice: no value is handed
    to two holders at once, none is idle while it is held, and none is queued
    twice. *)
Theorem X12_values_are_used_exclusively (w : World) :
  reachable w ->
  distinct_values (newFn (pool w)) ->
  NoDup (live w).
Proof. exact (reachable_NoDup w). Qed.

Lemma factory_distinct : distinct_values factory.
Proof.
  intros j k v Hj Hk. unfold factory in *.
  rewrite <- Hk in Hj. injection Hj as Hj. lia.
Defined.

Lemma X12_values_are_used_exclusively_witness :
  let w := run demo_program (fresh demo_pool) in
  reachable w /\
  distinct_values (newFn (pool w)) /\
  live w = [Closer 1 None; Closer 2 None] /\
  NoDup (live w).
Proof.
  intros w. split; [exact (demo_reachable demo_program)|].
  split; [exact factory_distinct|]. split; [reflexivity|].
  exact (X12_values_are_used_exclusively w (demo_reachable demo_program)
           factory_distinct).
Defined.

(** A value that is out of circulation stays out, as long as the factory does
    not return it again. *)
Lemma exec_stays_out (w : World) (o : op) (v : iface) :
  Inv w -> distinct_values (newFn (pool w)) ->
  constructed w v -> v ∉ live w ->
  constructed (world_of (exec o w)) v /\ v ∉ live (world_of (exec o w)).
Proof.
  intros HI Hdist Hv Hout.
  destruct (exec_live w o HI) as [Hcalls Hlive].
  split.
  - apply (constructed_mono w); [apply exec_newFn | exact Hcalls | exact Hv].
  - destruct Hlive as [Hp|[(x & Hnew & Hp)|(x & Hp)]].
    + rewrite Hp. exact Hout.
    + rewrite Hp. apply not_elem_of_cons. split; [|exact Hout].
      intros ->. destruct Hv as (k & Hk & Hkv).
      pose proof (Hdist _ _ _ Hkv Hnew). lia.
    + intros Hin. apply Hout. rewrite Hp. right. exact Hin.
Qed.

Lemma run_stays_out (ops : list op) (w : World) (v : iface) :
  Inv w -> distinct_values (newFn (pool w)) ->
  constructed w v -> v ∉ live w ->
  v ∉ live (run ops w).
Proof.
  revert w. induction ops as [|o ops IH]; intros w HI Hdist Hv Hout; cbn [run];
    [exact Hout|].
  destruct (exec_stays_out w o v HI Hdist Hv Hout) as [Hv' Hout'].
  pose proof (exec_newFn w o) as Hf.
  destruct (exec_Inv o w HI) as [HI' _].
  destruct (exec o w) as [a w'|msg w'|w']; cbn in Hv', Hout', Hf, HI'.
  - apply IH; [exact HI' | rewrite Hf; exact Hdist | exact Hv' | exact Hout'].
  - apply IH; [exact HI' | rewrite Hf; exact Hdist | exact Hv' | exact Hout'].
  - exact Hout'.
Qed.

(** X13.  A removed value is gone for good.  When the factory never returns
    the same value twice, then after [Remove] on an open item, whatever
    actions follow, the value of that item is never idle in the channel again
    and never held by an open item again: no later [Next] can hand it out. *)
Theorem X13_removed_value_never_returns
    (w : World) (i : ptr) (it : Item) (ops : list op) :
  reachable w ->
  distinct_values (newFn (pool w)) ->
  heap w !! i = Some it ->
  closed it = false ->
  exists w1,
    Remove i w = Done tt w1 /\
    (value it ∉ live (run ops w1)) /\
    forall (j : ptr) (jt : Item),
      heap (run ops w1) !! j = Some jt -> closed jt = false ->
      value jt <> value it.
Proof.
  intros Hr Hdist Hi Hc. pose proof (reachable_Inv w Hr) as HI.
  pose proof (reachable_NoDup w Hr Hdist) as Hnd.
  destruct (dispose_first w ByRemove i it HI Hi Hc) as (w1 & E & HI1 & _).
  cbn [dispose] in E. exists w1. split; [exact E|].
  pose proof (exec_live w (OpRemove i) HI) as [_ Hlive].
  pose proof (exec_newFn w (OpRemove i)) as Hf.
  unfold exec in Hlive, Hf. rewrite E in Hlive, Hf. cbn in Hlive, Hf.
  assert (Hperm : live w ≡ₚ value it :: live w1).
  { unfold live. rewrite (Remove_active w i it Hi Hc) in E.
    injection E as <-. cbn. rewrite (held_close _ _ _ Hi Hc).
    rewrite Permutation_middle. reflexivity. }
  assert (Hout : value it ∉ live w1).
  { rewrite Hperm in Hnd. apply NoDup_cons in Hnd as [Hnotin _]. exact Hnotin. }
  assert (Hv1 : constructed w1 (value it)).
  { apply (constructed_mono w); [exact Hf | | exact (inv_held w HI i it Hi Hc)].
    rewrite (Remove_active w i it Hi Hc) in E. injection E as <-. cbn. lia. }
  assert (Hgone : value it ∉ live (run ops w1)).
  { apply run_stays_out; [exact HI1 | rewrite Hf; exact Hdist | exact Hv1 | exact Hout]. }
  split; [exact Hgone|].
  intros j jt Hj Hjc Heq. apply Hgone. unfold live. apply elem_of_app. right.
  rewrite <- Heq. clear -Hj Hjc.
  revert j Hj. induction (heap (run ops w1)) as [|y h IH]; intros [|j] Hj;
    cbn in *; try discriminate.
  - injection Hj as ->. rewrite Hjc. left.
  - destruct (closed y); [|right]; exact (IH j Hj).
Qed.

Lemma X13_removed_value_never_returns_witness :
  let w := run [OpNext] (fresh single_pool) in
  let it := mkItem (Closer 0 None) false in
  let ops := [OpNext; OpRestore 1%nat; OpNext] in
  reachable w /\
  distinct_values (newFn (pool w)) /\
  heap w !! 0%nat = Some it /\
  closed it = false /\
  exists w1,
    Remove 0%nat w = Done tt w1 /\
    (value it ∉ live (run ops w1)) /\
    forall (j : ptr) (jt : Item),
      heap (run ops w1) !! j = Some jt -> closed jt = false ->
      value jt <> value it.
Proof.
  intros w it ops.
  assert (Hr : reachable w) by exact (single_reachable [OpNext]).
  split; [exact Hr|]. split; [exact factory_distinct|].
  split; [reflexivity|]. split; [reflexivity|].
  exact (X13_removed_value_never_returns w 0%nat it ops Hr factory_distinct
           eq_refl eq_refl).
Defined.

(** ** Items are independent *)

(** X14.  Disposing of an item never touches another one: whatever actions
    run, as long as none of them is a [Restore] or [Remove] of item [j], item
    [j] keeps its value and stays open or closed as it was. *)
Theorem X14_other_items_are_untouched
    (w : World) (j : ptr) (jt : Item) (ops : list op) :
  reachable w ->
  heap w !! j = Some jt ->
  leaves_alone j ops = true ->
  heap (run ops w) !! j = Some jt.
Proof.
  intros Hr Hj Hops.
  exact (run_keeps_item ops w j jt (reachable_Inv w Hr) Hj (or_introl Hops)).
Qed.

Lemma X14_other_items_are_untouched_witness :
  let w := run [OpNext; OpNext] (fresh demo_pool) in
  let ops := [OpRestore 0%nat; OpNext; OpRemove 2%nat; OpRemove 2%nat] in
  reachable w /\
  heap w !! 1%nat = Some (mkItem (Closer 1 None) false) /\
  leaves_alone 1 ops = true /\
  heap (run ops w) !! 1%nat = Some (mkItem (Closer 1 None) false).
Proof.
  intros w ops. split; [exact (demo_reachable [OpNext; OpNext])|].
  split; [reflexivity|]. split; [reflexivity|].
  exact (X14_other_items_are_untouched w 1%nat (mkItem (Closer 1 None) false)
           ops (demo_reachable [OpNext; OpNext]) eq_refl eq_refl).
Defined.

(** X15.  [Remove] on an open item gives back exactly one slot, at any fill
    level: [curSize] goes down by one and stays non-negative (the decrement
    never wraps around), the channel and the number of factory calls are
    untouched, and the value of the item is not disposed of by the pool. *)
Theorem X15_Remove_gives_back_one_slot (w : World) (i : ptr) (it : Item) :
  reachable w ->
  heap w !! i = Some it ->
  closed it = false ->
  exists w1,
    Remove i w = Done tt w1 /\
    curSize (pool w1) = curSize (pool w) - 1 /\
    0 <= curSize (pool w1) < maxSize (pool w1) /\
    items (pool w1) = items (pool w) /\
    calls w1 = calls w /\
    disposed w1 = disposed w.
Proof.
  intros Hr Hi Hc. pose proof (reachable_Inv w Hr) as HI.
  pose proof (Inv_int_curSize w HI) as Hrange.
  pose proof (inv_count w HI) as Hcount. unfold Chan.len in Hcount.
  pose proof (active_pos _ _ _ Hi Hc) as Hpos.
  eexists. split.
  { rewrite (Remove_active w i it Hi Hc).
    rewrite wrap_id by (unfold is_int, int_min, int_max in *; lia).
    reflexivity. }
  cbn. repeat split; lia.
Qed.

Lemma X15_Remove_gives_back_one_slot_witness :
  let w := run [OpNext; OpNext; OpRestore 1%nat] (fresh demo_pool) in
  let it := mkItem (Closer 0 None) false in
  reachable w /\
  heap w !! 0%nat = Some it /\
  closed it = false /\
  exists w1,
    Remove 0%nat w = Done tt w1 /\
    curSize (pool w1) = curSize (pool w) - 1 /\
    0 <= curSize (pool w1) < maxSize (pool w1) /\
    items (pool w1) = items (pool w) /\
    calls w1 = calls w /\
    disposed w1 = disposed w.
Proof.
  intros w it. split; [exact (demo_reachable _)|].
  split; [reflexivity|]. split; [reflexivity|].
  exact (X15_Remove_gives_back_one_slot w 0%nat it (demo_reachable _)
           eq_refl eq_refl).
Defined.

(** ** A caller that is already waiting *)

(** X16.  Growth is attempted before the wait only.  A caller that is already
    in the [select] of [Next], on an empty channel, is not served by a
    [Remove]: although [Remove] has brought [curSize] below [maxSize], that
    [select] does not call the factory and ends in [ErrTimeout] after the
    timeout, while a call of [Next] made after the [Remove] constructs a
    replacement. *)
Theorem X16_waiting_caller_does_not_grow (w : World) (i : ptr) (it : Item) :
  reachable w ->
  Chan.buf (items (pool w)) = [] ->
  heap w !! i = Some it ->
  closed it = false ->
  exists w1,
    Remove i w = Done tt w1 /\
    curSize (pool w1) < maxSize (pool w1) /\
    Next_select w1 =
      Done (None, Some ErrTimeout)
           (mkWorld (pool w1) (heap w1) (calls w1)
                    (clock w1 + timeout (pool w1)) (disposed w1)) /\
    calls (world_of (Next w1)) = S (calls w1).
Proof.
  intros Hr Hbuf Hi Hc. pose proof (reachable_Inv w Hr) as HI.
  pose proof (Inv_int_curSize w HI) as Hrange.
  pose proof (inv_count w HI) as Hcount. unfold Chan.len in Hcount.
  pose proof (active_pos _ _ _ Hi Hc) as Hpos.
  destruct (dispose_first w ByRemove i it HI Hi Hc) as (w1 & E & HI1 & _).
  cbn [dispose] in E. exists w1. split; [exact E|].
  pose proof E as E'. rewrite (Remove_active w i it Hi Hc) in E'.
  rewrite wrap_id in E' by (unfold is_int, int_min, int_max in *; lia).
  injection E' as <-. cbn [pool curSize maxSize set_curSize items] in *.
  split; [lia|]. split.
  - destruct (Next_select_cases _ (inv_open _ HI1)) as [(v & rest & Hb & _)|(_ & Es)].
    + cbn in Hb. congruence.
    + exact Es.
  - destruct (Next_grows_once _ HI1 Hbuf ltac:(cbn; lia)) as [Hcalls _].
    exact Hcalls.
Qed.

Lemma X16_waiting_caller_does_not_grow_witness :
  let w := run [OpNext] (fresh single_pool) in
  let it := mkItem (Closer 0 None) false in
  reachable w /\
  Chan.buf (items (pool w)) = [] /\
  heap w !! 0%nat = Some it /\
  closed it = false /\
  exists w1,
    Remove 0%nat w = Done tt w1 /\
    curSize (pool w1) < maxSize (pool w1) /\
    Next_select w1 =
      Done (None, Some ErrTimeout)
           (mkWorld (pool w1) (heap w1) (calls w1)
                    (clock w1 + timeout (pool w1)) (disposed w1)) /\
    calls (world_of (Next w1)) = S (calls w1).
Proof.
  intros w it. split; [exact (single_reachable [OpNext])|].
  split; [reflexivity|]. split; [reflexivity|]. split; [reflexivity|].
  exact (X16_waiting_caller_does_not_grow w 0%nat it (single_reachable [OpNext])
           eq_refl eq_refl eq_refl).
Defined.
